(** * A shallow embedding of the Star Wars API client (swapi.js)

    The development follows [src/swapi.js]: the cached fetcher
    [fetchFromApi], the five display functions, [printStats] and the
    orchestrator [fetchAndDisplayStarWarsData].  Two helpers that only the
    refactored variant of the script names ([isCached] and
    [isLargeAndPopulated]) are embedded as well and related to the inline
    code of [swapi.js].

    Modelling decisions, all of them about the JavaScript platform and not
    about the script:

    - JavaScript values are the trees [Val]; numbers are IEEE binary64
      floats.  Strings are sequences of code units below 256.
    - The built-ins whose algorithms are not part of the script
      ([JSON.parse], [JSON.stringify], Number-to-String, String-to-Number
      and [Date.parse]) are the fields of the class [Runtime]; every
      theorem holds for all of them.
    - A value produced by [JSON.parse] lives at a fresh address of [heap];
      the cache and the local variables of the script hold addresses, so
      that the aliasing between a cached entry and the payload handed to a
      display function is part of the model.
    - [apiCache] is a finite map of its own entries.  The names that it
      inherits from [Object.prototype] are listed by [inherited]; what a
      lookup finds is stated for the other names.
    - The promise of a network request is settled by exactly one of the
      events the script listens to; [createRequest] follows the request
      up to that event, [lateEvents] is what the request does afterwards.
    - Calls do not overlap: a call of the fetcher or of the orchestrator
      runs to its end before the next one starts, as inside one run, where
      every fetch is awaited. *)

From Stdlib Require Import ZArith String Ascii List Floats.
From stdpp Require Import base option list gmap strings pretty sorting.

Set Warnings "-register-all".

Local Open Scope string_scope.
Local Open Scope Z_scope.
Local Open Scope list_scope.

(** ** JavaScript values *)

Inductive Val : Type :=
| VUndef
| VNull
| VBool (b : bool)
| VNum (x : float)
| VStr (s : string)
| VArr (elems : list Val)
| VObj (props : list (string * Val)).

(** The errors the script can observe.  [NetworkError], [TimeoutError],
    [HttpStatusError] and [ParseError] are raised by the fetcher,
    [TypeError] by the platform (property access on [null] or [undefined],
    a call of something that is not a function, a failed conversion of an
    object to a primitive). *)
Inductive Error : Type :=
| NetworkError (message : string)
| TimeoutError (resourcePath : string)
| HttpStatusError (statusCode : Z)
| ParseError
| TypeError.

(** Completion of an expression: a value or a thrown error. *)
Inductive Res (A : Type) : Type :=
| Ok (a : A)
| Throw (e : Error).
Arguments Ok {A} a.
Arguments Throw {A} e.

#[global] Instance Res_ret : MRet Res := fun _ a => Ok a.
#[global] Instance Res_bind : MBind Res := fun _ _ f m =>
  match m with
  | Ok a => f a
  | Throw e => Throw e
  end.

(** Sequencing, with the computation written (and elaborated) before its
    continuation. *)
Definition bind {M : Type -> Type} `{MBind M} {A B} (m : M A) (f : A -> M B) : M B :=
  mbind f m.

Notation "'do' x <- m ; k" := (bind m (fun x => k))
  (at level 10, x name, m at level 100, k at level 200, only parsing).

(** The platform functions the script calls but does not define. *)
Class Runtime : Type := {
  (** [JSON.parse]: [None] when it throws a [SyntaxError]. *)
  JSON_parse : string -> option Val;
  (** [JSON.stringify] on a value that [JSON.parse] returned. *)
  JSON_stringify : Val -> string;
  (** Number::toString. *)
  Number_toString : float -> string;
  (** StringToNumber, [NaN] for a string that is no numeric literal. *)
  StringToNumber : string -> float;
  (** [Date.parse]: the time value in milliseconds, [None] for [NaN]. *)
  Date_parse : string -> option Z
}.

(** ** Conversions of the language *)

Definition float_of_nat (n : nat) : float :=
  PrimFloat.of_uint63 (Uint63.of_Z (Z.of_nat n)).

(** ToBoolean. *)
Definition truthy (v : Val) : bool :=
  match v with
  | VUndef | VNull => false
  | VBool b => b
  | VNum x => negb (PrimFloat.eqb x PrimFloat.zero || PrimFloat.is_nan x)
  | VStr s => negb (String.eqb s "")
  | VArr _ | VObj _ => true
  end.

Fixpoint own_property (props : list (string * Val)) (key : string) : Val :=
  match props with
  | [] => VUndef
  | (k, v) :: rest => if String.eqb k key then v else own_property rest key
  end.

Definition has_own_property (props : list (string * Val)) (key : string) : bool :=
  existsb (fun kv => String.eqb (fst kv) key) props.

(** [v.key] for the property names the script reads (none of them is a
    member of a built-in prototype, [length] apart). *)
Definition Get (v : Val) (key : string) : Res Val :=
  match v with
  | VUndef | VNull => Throw TypeError
  | VObj props => Ok (own_property props key)
  | VArr elems =>
      Ok (if String.eqb key "length" then VNum (float_of_nat (List.length elems)) else VUndef)
  | VStr s =>
      Ok (if String.eqb key "length" then VNum (float_of_nat (String.length s)) else VUndef)
  | VBool _ | VNum _ => Ok VUndef
  end.

(** ToString.  An object made by [JSON.parse] converts through
    [Object.prototype.toString] unless an own property shadows it (an own
    property is never callable, and [valueOf] returns the object), an array
    through [Array.prototype.join]. *)
Fixpoint ToString `{Runtime} (v : Val) : Res string :=
  match v with
  | VUndef => Ok "undefined"
  | VNull => Ok "null"
  | VBool b => Ok (if b then "true" else "false")
  | VNum x => Ok (Number_toString x)
  | VStr s => Ok s
  | VObj props =>
      if has_own_property props "toString" then Throw TypeError
      else Ok "[object Object]"
  | VArr elems =>
      (fix join (l : list Val) : Res string :=
         match l with
         | [] => Ok ""
         | x :: rest =>
             do s <- match x with
                 | VUndef | VNull => Ok ""
                 | _ => ToString x
                 end;
             match rest with
             | [] => Ok s
             | _ => do r <- join rest; Ok (s +:+ "," +:+ r)
             end
         end) elems
  end.

(** ToNumber. *)
Definition ToNumber `{Runtime} (v : Val) : Res float :=
  match v with
  | VUndef => Ok PrimFloat.nan
  | VNull => Ok PrimFloat.zero
  | VBool b => Ok (if b then PrimFloat.one else PrimFloat.zero)
  | VNum x => Ok x
  | VStr s => Ok (StringToNumber s)
  | VArr _ | VObj _ => do s <- ToString v; Ok (StringToNumber s)
  end.

(** [v > 0]. *)
Definition greater_than_zero `{Runtime} (v : Val) : Res bool :=
  do x <- ToNumber v; Ok (PrimFloat.ltb PrimFloat.zero x).

(** [v !== 'unknown']. *)
Definition is_not_unknown (v : Val) : bool :=
  match v with
  | VStr s => negb (String.eqb s "unknown")
  | _ => true
  end.

(** *** parseInt

    The result is the mathematical integer that the digits denote, [None]
    for [NaN].  The script only compares the result with [MIN_POPULATION]
    and [MIN_DIAMETER]; both are binary64 numbers and rounding to binary64
    is monotone, so the comparison on the integer is the comparison the
    script makes on the rounded number. *)

Definition is_white_space (c : ascii) : bool :=
  let n := nat_of_ascii c in
  ((n =? 9) || (n =? 10) || (n =? 11) || (n =? 12) || (n =? 13) || (n =? 32) || (n =? 160))%nat.

Fixpoint skip_white_space (s : string) : string :=
  match s with
  | String c rest => if is_white_space c then skip_white_space rest else s
  | EmptyString => s
  end.

Definition digit_value (c : ascii) : option Z :=
  let n := Z.of_nat (nat_of_ascii c) in
  if (48 <=? n) && (n <=? 57) then Some (n - 48)
  else if (97 <=? n) && (n <=? 122) then Some (n - 87)
  else if (65 <=? n) && (n <=? 90) then Some (n - 55)
  else None.

Fixpoint parse_digits (radix : Z) (s : string) (acc : option Z) : option Z :=
  match s with
  | EmptyString => acc
  | String c rest =>
      match digit_value c with
      | Some d =>
          if d <? radix then parse_digits radix rest (Some (radix * default 0 acc + d))
          else acc
      | None => acc
      end
  end.

Definition parseInt_string (input : string) : option Z :=
  let s := skip_white_space input in
  let '(sign, s) :=
    match s with
    | String "-" rest => (-1, rest)
    | String "+" rest => (1, rest)
    | _ => (1, s)
    end in
  let '(radix, s) :=
    match s with
    | String "0" (String "x" rest) => (16, rest)
    | String "0" (String "X" rest) => (16, rest)
    | _ => (10, s)
    end in
  Z.mul sign <$> parse_digits radix s None.

Definition parseInt `{Runtime} (v : Val) : Res (option Z) :=
  do s <- ToString v; Ok (parseInt_string s).

(** [n > bound] for a result of [parseInt]. *)
Definition greater_than (n : option Z) (bound : Z) : bool :=
  match n with
  | Some z => bound <? z
  | None => false
  end.

(** *** Dates

    A time value is an integer number of milliseconds of magnitude at most
    8.64e15, or [NaN] ([None]). *)

Definition TimeClip (x : float) : option Z :=
  match Prim2SF x with
  | S754_zero _ => Some 0
  | S754_finite negative m e =>
      let magnitude := if 0 <=? e then Z.pos m * 2 ^ e else Z.pos m / 2 ^ (- e) in
      if 8640000000000000 <? magnitude then None
      else Some (if negative then - magnitude else magnitude)
  | S754_infinity _ | S754_nan => None
  end.

(** The time value of [new Date(v)]. *)
Definition newDate `{Runtime} (v : Val) : Res (option Z) :=
  match v with
  | VStr s => Ok (Date_parse s)
  | VUndef => Ok None
  | VNull => Ok (Some 0)
  | VBool b => Ok (Some (if b then 1 else 0))
  | VNum x => Ok (TimeClip x)
  | VArr _ | VObj _ => do s <- ToString v; Ok (Date_parse s)
  end.

(** ** The state of the process *)

(** The five resources a run fetches and displays, in the order of the run. *)
Inductive Kind : Type := Character | Starships | Planets | Films | Vehicle.

#[global] Instance Kind_eq_dec : EqDecision Kind.
Proof. solve_decision. Defined.

(** What is passed to [console.log] and [console.error]. *)
Inductive Arg : Type :=
| AStr (s : string)
| AVal (v : Val)
| AInt (n : Z)
| AMessage (e : Error).

Inductive Line : Type :=
| Log (args : list Arg)
| LogError (args : list Arg).

(** Calls, recorded for the statements about what a run invokes. *)
Inductive Event : Type :=
| EvFetch (resourcePath : string)
| EvDisplay (k : Kind).

(** The module-level variables of the script, the heap of parsed values,
    and what the process has done so far: the lines written to the
    console, the requests sent to the network and the calls of the fetcher
    and of the display functions. *)
Record State : Type := mkState {
  apiCache : gmap string nat;
  heap : list Val;
  isDebugMode : bool;
  errorCount : Z;
  lastCharacterId : Z;
  apiCallCount : Z;
  totalDataSize : Z;
  console : list Line;
  requests : list string;
  trace : list Event
}.

Definition init_state (debug : bool) : State :=
  {| apiCache := ∅; heap := []; isDebugMode := debug; errorCount := 0;
     lastCharacterId := 1; apiCallCount := 0; totalDataSize := 0;
     console := []; requests := []; trace := [] |}.

Definition set_apiCache (f : gmap string nat -> gmap string nat) (s : State) : State :=
  mkState (f (apiCache s)) (heap s) (isDebugMode s) (errorCount s) (lastCharacterId s)
    (apiCallCount s) (totalDataSize s) (console s) (requests s) (trace s).
Definition set_heap (f : list Val -> list Val) (s : State) : State :=
  mkState (apiCache s) (f (heap s)) (isDebugMode s) (errorCount s) (lastCharacterId s)
    (apiCallCount s) (totalDataSize s) (console s) (requests s) (trace s).
Definition set_errorCount (f : Z -> Z) (s : State) : State :=
  mkState (apiCache s) (heap s) (isDebugMode s) (f (errorCount s)) (lastCharacterId s)
    (apiCallCount s) (totalDataSize s) (console s) (requests s) (trace s).
Definition set_lastCharacterId (f : Z -> Z) (s : State) : State :=
  mkState (apiCache s) (heap s) (isDebugMode s) (errorCount s) (f (lastCharacterId s))
    (apiCallCount s) (totalDataSize s) (console s) (requests s) (trace s).
Definition set_apiCallCount (f : Z -> Z) (s : State) : State :=
  mkState (apiCache s) (heap s) (isDebugMode s) (errorCount s) (lastCharacterId s)
    (f (apiCallCount s)) (totalDataSize s) (console s) (requests s) (trace s).
Definition set_totalDataSize (f : Z -> Z) (s : State) : State :=
  mkState (apiCache s) (heap s) (isDebugMode s) (errorCount s) (lastCharacterId s)
    (apiCallCount s) (f (totalDataSize s)) (console s) (requests s) (trace s).
Definition set_console (f : list Line -> list Line) (s : State) : State :=
  mkState (apiCache s) (heap s) (isDebugMode s) (errorCount s) (lastCharacterId s)
    (apiCallCount s) (totalDataSize s) (f (console s)) (requests s) (trace s).
Definition set_requests (f : list string -> list string) (s : State) : State :=
  mkState (apiCache s) (heap s) (isDebugMode s) (errorCount s) (lastCharacterId s)
    (apiCallCount s) (totalDataSize s) (console s) (f (requests s)) (trace s).
Definition set_trace (f : list Event -> list Event) (s : State) : State :=
  mkState (apiCache s) (heap s) (isDebugMode s) (errorCount s) (lastCharacterId s)
    (apiCallCount s) (totalDataSize s) (console s) (requests s) (f (trace s)).

(** ** Computations of the script: a state and exception monad *)

Definition M (A : Type) : Type := State -> Res A * State.

#[global] Instance M_ret : MRet M := fun _ a s => (Ok a, s).
#[global] Instance M_bind : MBind M := fun _ _ f m s =>
  match m s with
  | (Ok a, s') => f a s'
  | (Throw e, s') => (Throw e, s')
  end.

Definition gets {A} (f : State -> A) : M A := fun s => (Ok (f s), s).
Definition modify (f : State -> State) : M unit := fun s => (Ok tt, f s).
Definition throw {A} (e : Error) : M A := fun s => (Throw e, s).
Definition lift {A} (r : Res A) : M A := fun s => (r, s).

(** [try { body } catch (error) { handler }]. *)
Definition try_catch {A} (body : M A) (handler : Error -> M A) : M A := fun s =>
  match body s with
  | (Ok a, s') => (Ok a, s')
  | (Throw e, s') => handler e s'
  end.

(** [list.forEach((element, index) => body)], the index counted from [start]. *)
Fixpoint forEach {A} (body : nat -> A -> M unit) (start : nat) (l : list A) : M unit :=
  match l with
  | [] => mret tt
  | x :: rest => body start x;; forEach body (S start) rest
  end.

Definition record (e : Event) : M unit := modify (set_trace (fun t => t ++ [e])).
Definition console_log (args : list Arg) : M unit :=
  modify (set_console (fun c => c ++ [Log args])).
Definition console_error (args : list Arg) : M unit :=
  modify (set_console (fun c => c ++ [LogError args])).

Definition logDebug (args : list Arg) : M unit :=
  do debug <- gets isDebugMode;
  if debug then console_log args else mret tt.

(** The value at an address. *)
Definition deref (r : nat) : M Val := gets (fun s => default VUndef (heap s !! r)).

Definition nl : string := String "010"%char "".

(** ** The constants of the script *)

Definition HTTP_ERROR_THRESHOLD : Z := 400.
Definition MAX_STARSHIPS_DISPLAYED : nat := 3.
Definition MIN_POPULATION : Z := 1000000000.
Definition MIN_DIAMETER : Z := 10000.
Definition MAX_VEHICLE_CHARACTER_ID : Z := 4.

(** ** The network *)

(** The event of a request that settles its promise: the [error] event
    of the request, the timeout callback, or a response with its status
    code and the chunks of its body. *)
Inductive Outcome : Type :=
| OError (message : string)
| OTimeout
| OResponse (statusCode : Z) (chunks : list string).

(** The remote service: the outcome of the [n]-th request of the process,
    made for a resource path. *)
Definition Network : Type := nat -> string -> Outcome.

(** ** The fetcher *)

(** The address of [apiCache[resourcePath]] when that value is truthy,
    among the own entries of [apiCache] (see [inherited], below). *)
Definition cache_hit (s : State) (resourcePath : string) : option nat :=
  match apiCache s !! resourcePath with
  | Some r =>
      match heap s !! r with
      | Some v => if truthy v then Some r else None
      | None => None
      end
  | None => None
  end.

(** [isCached] of the refactored script: [!!apiCache[resourcePath]]. *)
Definition isCached (s : State) (resourcePath : string) : bool :=
  bool_decide (is_Some (cache_hit s resourcePath)).

(** [apiCache] is a plain object: a lookup of a name that it has no own
    entry for goes on to [Object.prototype].  The members found there are
    functions, and the prototype itself under [__proto__]: all truthy, so
    that the script takes such a name for a cached path and sends no
    request for it.  [cache_hit] looks at the own entries; it is the lookup
    of the script for the names that are not inherited, and the statements
    about what a lookup finds are made for those. *)
Definition inherited (name : string) : bool :=
  existsb (String.eqb name)
    ["constructor"; "hasOwnProperty"; "isPrototypeOf"; "propertyIsEnumerable";
     "toLocaleString"; "toString"; "valueOf"; "__proto__";
     "__defineGetter__"; "__defineSetter__"; "__lookupGetter__"; "__lookupSetter__"].

(** Storing a parsed value: a fresh address. *)
Definition alloc (v : Val) : M nat := fun s =>
  (Ok (List.length (heap s)), set_heap (fun h => h ++ [v]) s).

Definition incrementErrorCount : M unit := modify (set_errorCount (fun n => n + 1)).

Section Script.
Context `{Runtime}.

(** The promise of [fetchFromApi] on a cache miss: the request and the
    handlers of its events, up to the event that settles the promise.  What
    the request does after that is [lateEvents], below. *)
Definition createRequest (net : Network) (resourcePath : string) : M nat :=
  do n <- gets (fun s => List.length (requests s));
  modify (set_requests (fun q => q ++ [resourcePath]));;
  match net n resourcePath with
  | OError message => incrementErrorCount;; throw (NetworkError message)
  | OTimeout => incrementErrorCount;; throw (TimeoutError resourcePath)
  | OResponse statusCode chunks =>
      if HTTP_ERROR_THRESHOLD <=? statusCode
      then incrementErrorCount;; throw (HttpStatusError statusCode)
      else
        let responseData := fold_left String.append chunks "" in
        match JSON_parse responseData with
        | Some parsedData =>
            do r <- alloc parsedData;
            modify (set_apiCache (insert resourcePath r));;
            logDebug [AStr ("Successfully fetched data for " +:+ resourcePath)];;
            do size <- gets (fun s => size (apiCache s));
            logDebug [AStr ("Cache size: " +:+ pretty size)];;
            mret r
        | None => incrementErrorCount;; throw ParseError
        end
  end.

Definition fetchFromApi (net : Network) (resourcePath : string) : M nat :=
  record (EvFetch resourcePath);;
  do hit <- gets (fun s => cache_hit s resourcePath);
  match hit with
  | Some r => logDebug [AStr "Using cached data for"; AStr resourcePath];; mret r
  | None => createRequest net resourcePath
  end.

(** ** The request after its promise is settled

    [createRequest] follows a request up to the event that settles the
    promise.  The script removes no handler and never disarms the timeout,
    so an event that the request emits afterwards still runs its handler:
    [resolve] and [reject] do nothing then, [errorCount++] does.
    - A response with a status of [HTTP_ERROR_THRESHOLD] or more is never
      read, the callback returns at once: the timeout stays armed, and it
      fires once the connection has been idle for [requestTimeout]
      milliseconds, as it is on a connection that the server keeps open.
    - The callback of the timeout calls [request.abort()], and a request
      aborted before its response emits ['error'].
    A network error and a response read to its end leave no event.
    [pendingEvent] is the event that a request has left pending when its
    promise is settled. *)
Inductive LateEvent : Type :=
| TimeoutFires
| ErrorEmitted.

Definition pendingEvent (outcome : Outcome) : option LateEvent :=
  match outcome with
  | OError _ => None
  | OTimeout => Some ErrorEmitted
  | OResponse statusCode _ =>
      if HTTP_ERROR_THRESHOLD <=? statusCode then Some TimeoutFires else None
  end.

(** The handlers, run on a promise that is settled: the callback of
    [request.setTimeout] ([request.abort()], which emits no ['error'] once
    the response has arrived; [errorCount++]; [reject]) and the handler of
    ['error'] ([errorCount++]; [reject]). *)
Definition lateHandler (event : LateEvent) : M unit :=
  match event with
  | TimeoutFires => incrementErrorCount
  | ErrorEmitted => incrementErrorCount
  end.

(** What the request of a call [fetchFromApi(resourcePath)], made in the
    state [s0], still does once the call has ended: the handler of its
    pending event, run when that event occurs. *)
Definition lateEvents (net : Network) (resourcePath : string) (s0 : State) : M unit :=
  match cache_hit s0 resourcePath with
  | Some _ => mret tt
  | None =>
      match pendingEvent (net (List.length (requests s0)) resourcePath) with
      | Some event => lateHandler event
      | None => mret tt
      end
  end.

(** ** Array.prototype.sort

    The sort of the platform is stable; which pairs it compares is left to
    the implementation.  For a consistent comparator every implementation
    returns the list that the insertion below returns.  For a comparator
    that is not consistent (the comparator of the films is not when a
    release date is no date) the order depends on the pairs compared: the
    insertion below is then one possible order, and the statements that
    name the sorted order are made for films whose dates parse.  A
    comparator that throws leaves the array as it was.  [undefined]
    elements go last and are never compared.  The comparator returns a
    number, [None] for [NaN], which the sort reads as zero. *)

Fixpoint sort_insert {A} (compare : A -> A -> Res (option Z)) (x : A) (l : list A)
  : Res (list A) :=
  match l with
  | [] => Ok [x]
  | y :: rest =>
      do c <- compare x y;
      if 0 <? default 0 c
      then do rest' <- sort_insert compare x rest; Ok (y :: rest')
      else Ok (x :: y :: rest)
  end.

Fixpoint sort_defined {A} (compare : A -> A -> Res (option Z)) (l : list A)
  : Res (list A) :=
  match l with
  | [] => Ok []
  | x :: rest => do sorted <- sort_defined compare rest; sort_insert compare x sorted
  end.

Definition is_undefined (v : Val) : bool :=
  match v with VUndef => true | _ => false end.

Definition Array_sort (compare : Val -> Val -> Res (option Z)) (l : list Val)
  : Res (list Val) :=
  do sorted <- sort_defined compare (List.filter (fun v => negb (is_undefined v)) l);
  Ok (sorted ++ List.filter is_undefined l).

(** [a - b] on two time values.  The sort reads only the sign of the
    difference, and the binary64 difference of two time values has the
    sign of their difference as integers. *)
Definition date_difference (a b : option Z) : option Z :=
  match a, b with
  | Some x, Some y => Some (x - y)
  | _, _ => None
  end.

(** The comparator of [printFilmsData]:
    [new Date(filmA.release_date) - new Date(filmB.release_date)]. *)
Definition compareReleaseDates (filmA filmB : Val) : Res (option Z) :=
  do releaseA <- Get filmA "release_date";
  do dateA <- newDate releaseA;
  do releaseB <- Get filmB "release_date";
  do dateB <- newDate releaseB;
  Ok (date_difference dateA dateB).

Fixpoint set_property (props : list (string * Val)) (key : string) (v : Val)
  : list (string * Val) :=
  match props with
  | [] => [(key, v)]
  | (k, old) :: rest =>
      if String.eqb k key then (k, v) :: rest else (k, old) :: set_property rest key v
  end.

(** The in-place effect of [sort] on the array that is the [results]
    property of the object at address [r]. *)
Definition store_results (r : nat) (sorted : list Val) : M unit :=
  modify (set_heap (fun h =>
    match h !! r with
    | Some (VObj props) => <[r := VObj (set_property props "results" (VArr sorted))]> h
    | _ => h
    end)).

(** ** The display functions

    Each takes the address of the payload the fetcher resolved with. *)

(** [console.log(label, data.key)]. *)
Definition log_property (label : string) (data : Val) (key : string) : M unit :=
  do v <- lift (Get data key);
  console_log [AStr label; AVal v].

(** The guard [data.key && data.key.length > 0], with the length. *)
Definition non_empty (data : Val) (key : string) : Res (option Val) :=
  do list <- Get data key;
  if truthy list
  then
    do len <- Get list "length";
    do positive <- greater_than_zero len;
    Ok (if positive : bool then Some len else None)
  else Ok None.

Definition printCharacterData (r : nat) : M unit :=
  record (EvDisplay Character);;
  do characterData <- deref r;
  log_property "Character:" characterData "name";;
  log_property "Height:" characterData "height";;
  log_property "Mass:" characterData "mass";;
  log_property "Birthday:" characterData "birth_year";;
  do films <- lift (non_empty characterData "films");
  match films with
  | Some len => console_log [AStr "Appears in"; AVal len; AStr "films"]
  | None => mret tt
  end.

Definition printStarship (index : nat) (starship : Val) : M unit :=
  console_log [AStr (nl +:+ "Starship " +:+ pretty (S index) +:+ ":")];;
  log_property "Name:" starship "name";;
  log_property "Model:" starship "model";;
  log_property "Manufacturer:" starship "manufacturer";;
  do cost <- lift (Get starship "cost_in_credits");
  (if is_not_unknown cost
   then do text <- lift (ToString cost);
        console_log [AStr "Cost:"; AStr (text +:+ " credits")]
   else console_log [AStr "Cost:"; AStr "unknown"]);;
  log_property "Speed:" starship "max_atmosphering_speed";;
  log_property "Hyperdrive Rating:" starship "hyperdrive_rating";;
  do pilots <- lift (non_empty starship "pilots");
  match pilots with
  | Some len => console_log [AStr "Pilots:"; AVal len]
  | None => mret tt
  end.

Definition printStarshipData (r : nat) : M unit :=
  record (EvDisplay Starships);;
  do starshipsData <- deref r;
  log_property (nl +:+ "Total Starships:") starshipsData "count";;
  do results <- lift (Get starshipsData "results");
  match results with
  | VArr starships => forEach printStarship 0 (firstn MAX_STARSHIPS_DISPLAYED starships)
  | _ => throw TypeError
  end.

(** The condition of [printLargePlanets], evaluated left to right and cut
    short at the first operand that is false. *)
Definition largePlanetCondition (planet : Val) : Res bool :=
  do population <- Get planet "population";
  if is_not_unknown population
  then
    do parsedPopulation <- parseInt population;
    if greater_than parsedPopulation MIN_POPULATION
    then
      do diameter <- Get planet "diameter";
      if is_not_unknown diameter
      then do parsedDiameter <- parseInt diameter;
           Ok (greater_than parsedDiameter MIN_DIAMETER)
      else Ok false
    else Ok false
  else Ok false.

(** [isLargeAndPopulated] of the refactored script: both [parseInt] calls
    come first. *)
Definition isLargeAndPopulated (planet : Val) : Res bool :=
  do rawPopulation <- Get planet "population";
  do population <- parseInt rawPopulation;
  do rawDiameter <- Get planet "diameter";
  do diameter <- parseInt rawDiameter;
  Ok (is_not_unknown rawPopulation && greater_than population MIN_POPULATION &&
      is_not_unknown rawDiameter && greater_than diameter MIN_DIAMETER).

(** The lines of one planet that passed the condition. *)
Definition printPlanetDetails (planet : Val) : M unit :=
  do name <- lift (Get planet "name");
  do population <- lift (Get planet "population");
  do diameter <- lift (Get planet "diameter");
  do climate <- lift (Get planet "climate");
  console_log [AVal name; AStr "- Pop:"; AVal population; AStr "- Diameter:"; AVal diameter;
               AStr "- Climate:"; AVal climate];;
  do films <- lift (non_empty planet "films");
  match films with
  | Some len =>
      do text <- lift (ToString len);
      console_log [AStr ("  Appears in " +:+ text +:+ " films")]
  | None => mret tt
  end.

Definition printPlanet (index : nat) (planet : Val) : M unit :=
  do large <- lift (largePlanetCondition planet);
  if large : bool then printPlanetDetails planet else mret tt.

Definition printLargePlanets (r : nat) : M unit :=
  record (EvDisplay Planets);;
  do planetsData <- deref r;
  console_log [AStr (nl +:+ "Large populated planets:")];;
  do results <- lift (Get planetsData "results");
  match results with
  | VArr planets => forEach printPlanet 0 planets
  | _ => throw TypeError
  end.

Definition printFilm (index : nat) (film : Val) : M unit :=
  do title <- lift (Get film "title");
  do titleText <- lift (ToString title);
  do release <- lift (Get film "release_date");
  do releaseText <- lift (ToString release);
  console_log [AStr (pretty (S index) +:+ ". " +:+ titleText +:+ " (" +:+ releaseText +:+ ")")];;
  do director <- lift (Get film "director");
  do directorText <- lift (ToString director);
  console_log [AStr ("   Director: " +:+ directorText)];;
  do producer <- lift (Get film "producer");
  do producerText <- lift (ToString producer);
  console_log [AStr ("   Producer: " +:+ producerText)];;
  do characters <- lift (Get film "characters");
  do charactersLength <- lift (Get characters "length");
  do charactersText <- lift (ToString charactersLength);
  console_log [AStr ("   Characters: " +:+ charactersText)];;
  do planets <- lift (Get film "planets");
  do planetsLength <- lift (Get planets "length");
  do planetsText <- lift (ToString planetsLength);
  console_log [AStr ("   Planets: " +:+ planetsText)].

Definition printFilmsData (r : nat) : M unit :=
  record (EvDisplay Films);;
  do filmsData <- deref r;
  do results <- lift (Get filmsData "results");
  match results with
  | VArr films =>
      do sortedFilms <- lift (Array_sort compareReleaseDates films);
      store_results r sortedFilms;;
      console_log [AStr (nl +:+ "Star Wars Films in chronological order:")];;
      forEach printFilm 0 sortedFilms
  | _ => throw TypeError
  end.

Definition printVehicleData (r : nat) : M unit :=
  record (EvDisplay Vehicle);;
  do vehicleData <- deref r;
  console_log [AStr (nl +:+ "Featured Vehicle:")];;
  log_property "Name:" vehicleData "name";;
  log_property "Model:" vehicleData "model";;
  log_property "Manufacturer:" vehicleData "manufacturer";;
  do cost <- lift (Get vehicleData "cost_in_credits");
  console_log [AStr "Cost:"; AVal cost; AStr "credits"];;
  log_property "Length:" vehicleData "length";;
  log_property "Crew Required:" vehicleData "crew";;
  log_property "Passengers:" vehicleData "passengers".

Definition printStats : M unit :=
  logDebug [AStr (nl +:+ "Stats:")];;
  do calls <- gets apiCallCount;
  logDebug [AStr "API Calls:"; AInt calls];;
  do cacheSize <- gets (fun s => Z.of_nat (size (apiCache s)));
  logDebug [AStr "Cache Size:"; AInt cacheSize];;
  do total <- gets totalDataSize;
  logDebug [AStr "Total Data Size:"; AInt total; AStr "bytes"];;
  do errors <- gets errorCount;
  logDebug [AStr "Error Count:"; AInt errors].

(** ** The orchestrator *)

(** The resource path of a step; the character and the vehicle are
    selected by the cursor [lastCharacterId]. *)
Definition resourcePath (k : Kind) (s : State) : string :=
  match k with
  | Character => "people/" +:+ pretty (lastCharacterId s)
  | Starships => "starships/?page=1"
  | Planets => "planets/?page=1"
  | Films => "films/"
  | Vehicle => "vehicles/" +:+ pretty (lastCharacterId s)
  end.

Definition display (k : Kind) : nat -> M unit :=
  match k with
  | Character => printCharacterData
  | Starships => printStarshipData
  | Planets => printLargePlanets
  | Films => printFilmsData
  | Vehicle => printVehicleData
  end.

(** [totalDataSize += JSON.stringify(data).length]. *)
Definition addDataSize (r : nat) : M unit :=
  do data <- deref r;
  modify (set_totalDataSize (fun n => n + Z.of_nat (String.length (JSON_stringify data)))).

(** One step of a run: fetch, count the size, display.  The script writes
    these three statements once per resource; the refactored script names
    them [handleCharacterData], ..., [handleVehicleData]. *)
Definition handleData (net : Network) (k : Kind) : M unit :=
  do path <- gets (resourcePath k);
  do data <- fetchFromApi net path;
  addDataSize data;;
  display k data.

Definition handleCharacterData (net : Network) : M unit := handleData net Character.
Definition handleStarshipsData (net : Network) : M unit := handleData net Starships.
Definition handlePlanetsData (net : Network) : M unit := handleData net Planets.
Definition handleFilmsData (net : Network) : M unit := handleData net Films.
Definition handleVehicleData (net : Network) : M unit := handleData net Vehicle.

(** The vehicle step with its guard, and the advance of the cursor. *)
Definition vehicleStep (net : Network) : M unit :=
  do id <- gets lastCharacterId;
  if id <=? MAX_VEHICLE_CHARACTER_ID
  then handleVehicleData net;; modify (set_lastCharacterId (fun n => n + 1))
  else mret tt.

(** The [try] block of [fetchAndDisplayStarWarsData]. *)
Definition tryBlock (net : Network) : M unit :=
  logDebug [AStr "Starting data fetch..."];;
  modify (set_apiCallCount (fun n => n + 1));;
  handleCharacterData net;;
  handleStarshipsData net;;
  handlePlanetsData net;;
  handleFilmsData net;;
  vehicleStep net;;
  printStats.

(** The [catch] block. *)
Definition catchBlock (error : Error) : M unit :=
  console_error [AStr "Error:"; AMessage error];;
  incrementErrorCount.

Definition fetchAndDisplayStarWarsData (net : Network) : M unit :=
  try_catch (tryBlock net) catchBlock.

(** ** Histories of a process

    What a process does with the two exported functions: calls of the
    fetcher and runs of the orchestrator, one after the other. *)

Inductive Op : Type :=
| OpFetch (resourcePath : string)
| OpRun.

Definition step (net : Network) (op : Op) (s : State) : State :=
  match op with
  | OpFetch path => snd (fetchFromApi net path s)
  | OpRun => snd (fetchAndDisplayStarWarsData net s)
  end.

Definition exec (net : Network) (ops : list Op) (s : State) : State :=
  fold_left (fun s op => step net op s) ops s.

End Script.

(** ** A sample platform and sample services

    Used by the examples only.  The sample platform agrees with the real
    one on the texts and values of the examples: JSON texts of objects,
    arrays, [null] and strings without escapes, numbers that are small
    non-negative integers, and dates written [YYYY-MM-DD]. *)

Module Sample.

Definition quote : string := String "034"%char "".

Definition Z_of_float (x : float) : option Z :=
  match Prim2SF x with
  | S754_zero _ => Some 0
  | S754_finite false m e => if 0 <=? e then Some (Z.pos m * 2 ^ e)
                             else if Z.pos m mod 2 ^ (- e) =? 0 then Some (Z.pos m / 2 ^ (- e))
                             else None
  | _ => None
  end.

Definition number_text (x : float) : string :=
  match Z_of_float x with
  | Some z => pretty z
  | None => "NaN"
  end.

Fixpoint to_json (v : Val) : string :=
  match v with
  | VUndef | VNull => "null"
  | VBool b => if b then "true" else "false"
  | VNum x => number_text x
  | VStr s => quote +:+ s +:+ quote
  | VArr elems =>
      "[" +:+ (fix items (l : list Val) : string :=
                 match l with
                 | [] => ""
                 | [x] => to_json x
                 | x :: rest => to_json x +:+ "," +:+ items rest
                 end) elems +:+ "]"
  | VObj props =>
      "{" +:+ (fix members (l : list (string * Val)) : string :=
                 match l with
                 | [] => ""
                 | [(k, x)] => quote +:+ k +:+ quote +:+ ":" +:+ to_json x
                 | (k, x) :: rest =>
                     quote +:+ k +:+ quote +:+ ":" +:+ to_json x +:+ "," +:+ members rest
                 end) props +:+ "}"
  end.

Definition luke : Val :=
  VObj [("name", VStr "Luke Skywalker"); ("height", VStr "172"); ("mass", VStr "77");
        ("birth_year", VStr "19BBY")].

Definition starships : Val :=
  VObj [("count", VNum PrimFloat.one);
        ("results", VArr [VObj [("name", VStr "CR90 corvette");
                                ("cost_in_credits", VStr "3500000")]])].

Definition coruscant : Val :=
  VObj [("name", VStr "Coruscant"); ("population", VStr "1000000000000");
        ("diameter", VStr "12240"); ("climate", VStr "temperate")].
Definition billion : Val :=
  VObj [("name", VStr "Billion"); ("population", VStr "1000000000");
        ("diameter", VStr "12500"); ("climate", VStr "arid")].
Definition hoth : Val :=
  VObj [("name", VStr "Hoth"); ("population", VStr "unknown");
        ("diameter", VStr "72000"); ("climate", VStr "frozen")].
Definition planets : Val := VObj [("results", VArr [coruscant; billion; hoth])].

Definition film (title release : string) : Val :=
  VObj [("title", VStr title); ("release_date", VStr release); ("director", VStr "d");
        ("producer", VStr "p"); ("characters", VArr []); ("planets", VArr [])].
Definition empire : Val := film "The Empire Strikes Back" "1980-05-17".
Definition hope : Val := film "A New Hope" "1977-05-25".
Definition films : Val := VObj [("results", VArr [empire; hope])].

Definition crawler : Val := VObj [("name", VStr "Sand Crawler")].

(** A films payload in which one release date is no date, and a payload
    of four starships. *)
Definition rogue : Val := film "Rogue One" "to be announced".
Definition films_undated : Val := VObj [("results", VArr [empire; rogue; hope])].

Definition ship (name : string) : Val :=
  VObj [("name", VStr name); ("cost_in_credits", VStr "unknown")].
Definition fleet : Val :=
  VObj [("count", VStr "4");
        ("results", VArr [ship "Executor"; ship "Falcon"; ship "X-wing"; ship "Slave 1"])].

Definition texts : list (string * Val) :=
  map (fun v => (to_json v, v))
      [VNull; VNum PrimFloat.zero; VObj []; luke; starships; planets; films; crawler;
       films_undated; fleet].

Definition sample_parse (text : string) : option Val :=
  snd <$> List.find (fun entry => String.eqb (fst entry) text) texts.

Definition digit (c : ascii) : Z := Z.of_nat (nat_of_ascii c) - 48.

(** The days from 1970-01-01 to a date of the proleptic Gregorian calendar. *)
Definition days_from_civil (y m d : Z) : Z :=
  let y := if m <=? 2 then y - 1 else y in
  let era := y / 400 in
  let yoe := y - era * 400 in
  let doy := (153 * (if 2 <? m then m - 3 else m + 9) + 2) / 5 + d - 1 in
  let doe := yoe * 365 + yoe / 4 - yoe / 100 + doy in
  era * 146097 + doe - 719468.

Definition sample_date (text : string) : option Z :=
  match list_ascii_of_string text with
  | [y1; y2; y3; y4; "-"%char; m1; m2; "-"%char; d1; d2] =>
      let year := digit y1 * 1000 + digit y2 * 100 + digit y3 * 10 + digit y4 in
      let month := digit m1 * 10 + digit m2 in
      let day := digit d1 * 10 + digit d2 in
      Some (days_from_civil year month day * 86400000)
  | _ => None
  end.

(** StringToNumber on the empty string and on strings of decimal digits. *)
Definition sample_number (text : string) : float :=
  match text with
  | EmptyString => PrimFloat.zero
  | _ =>
      if forallb (fun c => (0 <=? digit c) && (digit c <=? 9)) (list_ascii_of_string text)
      then PrimFloat.of_uint63 (Uint63.of_Z (default 0 (parse_digits 10 text None)))
      else PrimFloat.nan
  end.

#[export] Instance runtime : Runtime := {
  JSON_parse := sample_parse;
  JSON_stringify := to_json;
  Number_toString := number_text;
  StringToNumber := sample_number;
  Date_parse := sample_date
}.

(** A service that answers every request with status 200. *)
Definition body (resourcePath : string) : string :=
  if String.prefix "people/" resourcePath then to_json luke
  else if String.prefix "starships/" resourcePath then to_json starships
  else if String.prefix "planets/" resourcePath then to_json planets
  else if String.prefix "films/" resourcePath then to_json films
  else to_json crawler.

Definition swapi : Network := fun _ path => OResponse 200 [body path].

(** A service that follows a script, one outcome per request. *)
Definition scripted (outcomes : list Outcome) : Network :=
  fun n _ => default OTimeout (outcomes !! n).

(** A service that fails on the paths with a given prefix. *)
Definition failing (prefix : string) (failure : Outcome) : Network :=
  fun n path => if String.prefix prefix path then failure else swapi n path.

(** A service whose first answer to a request is the JSON text [null] and
    whose second answer is an empty object. *)
Definition null_then_object : Network :=
  scripted [OResponse 200 ["null"]; OResponse 200 ["{}"]].

(** A service that answers the planets request with status 503. *)
Definition planets_unavailable : Network := failing "planets/" (OResponse 503 []).

(** The scenario of the specification: status 500 for [people/1]. *)
Definition people_broken : Network := failing "people/" (OResponse 500 []).

(** A service on which every vehicle request times out. *)
Definition vehicles_time_out : Network := failing "vehicles/" OTimeout.

(** A service that answers with a page that is no JSON text, in two chunks. *)
Definition html_page : Network := scripted [OResponse 200 ["<ht"; "ml>"]].

Definition four_starships : Network := scripted [OResponse 200 [to_json fleet]].

End Sample.

(** * The vocabulary of the statements

    Predicates on computations, the states and the points of a run that
    the statements name, and the stable sort by a key. *)

Section Vocabulary.
Context `{Runtime}.

(** ** Predicates on computations *)

(** [keeps f m]: the computation [m] leaves the component [f] of the state
    as it was, whether it returns or throws. *)
Definition keeps {X A} (f : State -> X) (m : M A) : Prop :=
  forall s, f (snd (m s)) = f s.

(** [writes Q m]: the computation [m] only appends lines to the console,
    and every line it appends satisfies [Q]. *)
Definition writes {A} (Q : Line -> Prop) (m : M A) : Prop :=
  forall s, exists lines,
    console (snd (m s)) = console s ++ lines /\ Forall Q lines.

(** [extends s s']: every stored value of [s] is still stored in [s'] and
    is as truthy as it was, and every path with a truthy cached value in
    [s] is cached at the same address in [s']. *)
Definition extends (s s' : State) : Prop :=
  (forall r v, heap s !! r = Some v ->
               exists v', heap s' !! r = Some v' /\ truthy v' = truthy v) /\
  (forall path r, cache_hit s path = Some r -> apiCache s' !! path = Some r).

Definition stable {A} (m : M A) : Prop := forall s, extends s (snd (m s)).

(** ** The states the fetcher can leave *)

(** The state after [logDebug]: one more line when debugging is on. *)
Definition logged (args : list Arg) (s : State) : State :=
  if isDebugMode s then set_console (fun c => c ++ [Log args]) s else s.

(** The state after a request that failed. *)
Definition failed_request (resourcePath : string) (s : State) : State :=
  set_errorCount (fun n => n + 1)
    (set_requests (fun q => q ++ [resourcePath])
       (set_trace (fun t => t ++ [EvFetch resourcePath]) s)).

(** The state after a request whose body parsed to [v]. *)
Definition stored (resourcePath : string) (v : Val) (s : State) : State :=
  let s1 := set_apiCache (insert resourcePath (List.length (heap s)))
              (set_heap (fun h => h ++ [v])
                 (set_requests (fun q => q ++ [resourcePath])
                    (set_trace (fun t => t ++ [EvFetch resourcePath]) s))) in
  let s2 := logged [AStr ("Successfully fetched data for " +:+ resourcePath)] s1 in
  logged [AStr ("Cache size: " +:+ pretty (size (apiCache s2)))] s2.

(** The four ways in which a request fails. *)
Inductive fails (net : Network) (path : string) (s : State) : Error -> Prop :=
| fails_error message :
    net (List.length (requests s)) path = OError message ->
    fails net path s (NetworkError message)
| fails_timeout :
    net (List.length (requests s)) path = OTimeout ->
    fails net path s (TimeoutError path)
| fails_status statusCode chunks :
    net (List.length (requests s)) path = OResponse statusCode chunks ->
    HTTP_ERROR_THRESHOLD <= statusCode ->
    fails net path s (HttpStatusError statusCode)
| fails_parse statusCode chunks :
    net (List.length (requests s)) path = OResponse statusCode chunks ->
    statusCode < HTTP_ERROR_THRESHOLD ->
    JSON_parse (fold_left String.append chunks "") = None ->
    fails net path s ParseError.

(** A request that succeeds: the parsed body. *)
Definition succeeds (net : Network) (path : string) (s : State) (v : Val) : Prop :=
  exists statusCode chunks,
    net (List.length (requests s)) path = OResponse statusCode chunks /\
    statusCode < HTTP_ERROR_THRESHOLD /\
    JSON_parse (fold_left String.append chunks "") = Some v.

(** ** The points of a run *)

(** The state after [totalDataSize += JSON.stringify(data).length] for the
    payload at address [r]. *)
Definition sized (r : nat) (s : State) : State :=
  set_totalDataSize
    (fun n => n + Z.of_nat (String.length (JSON_stringify (default VUndef (heap s !! r))))) s.

(** The events of a step that completes. *)
Definition step_events (k : Kind) (s : State) : list Event :=
  [EvFetch (resourcePath k s); EvDisplay k].

(** The steps that precede step [k] in a run, and the position of [k]. *)
Definition preceding (k : Kind) : list Kind :=
  match k with
  | Character => []
  | Starships => [Character]
  | Planets => [Character; Starships]
  | Films => [Character; Starships; Planets]
  | Vehicle => [Character; Starships; Planets; Films]
  end.

Definition step_index (k : Kind) : nat := S (List.length (preceding k)).

(** The steps of a list, one after the other. *)
Fixpoint handleAll (net : Network) (ks : list Kind) : M unit :=
  match ks with
  | [] => mret tt
  | k :: rest => handleData net k;; handleAll net rest
  end.

(** The part of the [try] block that precedes the fetch of step [k]; a
    run reaches step [k] when it returns. *)
Definition runUpTo (net : Network) (k : Kind) : M unit :=
  logDebug [AStr "Starting data fetch..."];;
  modify (set_apiCallCount (fun n => n + 1));;
  handleAll net (preceding k).

(** The steps from [k] to the films step. *)
Definition following (k : Kind) : list Kind :=
  match k with
  | Character => [Character; Starships; Planets; Films]
  | Starships => [Starships; Planets; Films]
  | Planets => [Planets; Films]
  | Films => [Films]
  | Vehicle => []
  end.

Definition thenAll {A} (net : Network) (ks : list Kind) (rest : M A) : M A :=
  fold_right (fun j acc => handleData net j;; acc) rest ks.

(** The rest of the [try] block, from step [k] on. *)
Definition runFrom (net : Network) (k : Kind) : M unit :=
  thenAll net (following k) (vehicleStep net;; printStats).

(** The state after the first two statements of the [try] block. *)
Definition started (s : State) : State :=
  set_apiCallCount (fun n => n + 1) (logged [AStr "Starting data fetch..."] s).

(** The state in which a run that caught [e] ends. *)
Definition caught (e : Error) (s : State) : State :=
  set_errorCount (fun n => n + 1)
    (set_console (fun c => c ++ [LogError [AStr "Error:"; AMessage e]]) s).

(** ** The planets filter *)

(** The values a displayed planet must have. *)
Definition large_and_populated (population diameter : Val) : Prop :=
  exists p d, parseInt population = Ok (Some p) /\ MIN_POPULATION < p /\
              parseInt diameter = Ok (Some d) /\ MIN_DIAMETER < d /\
              population <> VStr "unknown" /\ diameter <> VStr "unknown".

(** The line of a planet, as [printLargePlanets] writes it. *)
Definition planet_line (name population diameter climate : Val) : Line :=
  Log [AVal name; AStr "- Pop:"; AVal population; AStr "- Diameter:"; AVal diameter;
       AStr "- Climate:"; AVal climate].

Definition planet_line_ok (line : Line) : Prop :=
  forall name population diameter climate,
    line = planet_line name population diameter climate ->
    large_and_populated population diameter.

(** ** The stable sort by a key *)

Fixpoint insert_by {A} (key : A -> Z) (x : A) (l : list A) : list A :=
  match l with
  | [] => [x]
  | y :: rest => if key y <? key x then y :: insert_by key x rest else x :: y :: rest
  end.

Fixpoint sort_by {A} (key : A -> Z) (l : list A) : list A :=
  match l with
  | [] => []
  | x :: rest => insert_by key x (sort_by key rest)
  end.

Definition key_le {A} (key : A -> Z) (x y : A) : Prop := key x <= key y.

(** ** The films *)

(** The time value of the release date of a film. *)
Definition releaseTime (film : Val) : Res (option Z) :=
  do release <- Get film "release_date"; newDate release.

(** A film whose release date parses to a date, and that date. *)
Definition dated (film : Val) : Prop := exists t, releaseTime film = Ok (Some t).

Definition release_key (film : Val) : Z :=
  match releaseTime film with
  | Ok (Some t) => t
  | _ => 0
  end.

(** The state in which [printFilmsData] starts to write: the display is
    recorded, the array is sorted in place, the heading is written. *)
Definition films_sorted (r : nat) (props : list (string * Val)) (sorted : list Val)
    (s : State) : State :=
  set_console (fun c => c ++ [Log [AStr (nl +:+ "Star Wars Films in chronological order:")]])
    (set_heap (fun h => <[r := VObj (set_property props "results" (VArr sorted))]> h)
       (set_trace (fun t => t ++ [EvDisplay Films]) s)).

End Vocabulary.

(** * More vocabulary *)

(** [preserves Inv m]: the computation [m] keeps the property [Inv] of the
    state, whether it returns or throws. *)
Definition preserves {A} (Inv : State -> Prop) (m : M A) : Prop :=
  forall s, Inv s -> Inv (snd (m s)).

(** The runs among the calls of a history. *)
Definition is_run (op : Op) : bool :=
  match op with OpRun => true | OpFetch _ => false end.

(** [grown s0 s]: the state [s] has at least the errors, the bytes, the
    cached paths, the stored values and the requests of [s0], and its
    debugging flag. *)
Definition grown (s0 s : State) : Prop :=
  errorCount s0 <= errorCount s /\
  totalDataSize s0 <= totalDataSize s /\
  (forall path, is_Some (apiCache s0 !! path) -> is_Some (apiCache s !! path)) /\
  (List.length (heap s0) <= List.length (heap s))%nat /\
  requests s0 `prefix_of` requests s /\
  isDebugMode s = isDebugMode s0.

(** [cache_sound s]: every cached path has been requested from the
    network, and its address holds a value. *)
Definition cache_sound (s : State) : Prop :=
  forall path r, apiCache s !! path = Some r ->
                 In path (requests s) /\ exists v, heap s !! r = Some v.

(** The heading a display function writes before it reads its payload. *)
Definition early_heading (k : Kind) : list Line :=
  match k with
  | Planets => [Log [AStr (nl +:+ "Large populated planets:")]]
  | Vehicle => [Log [AStr (nl +:+ "Featured Vehicle:")]]
  | Character | Starships | Films => []
  end.

(** The heading of the [i]-th starship. *)
Definition starship_heading (i : nat) : Line :=
  Log [AStr (nl +:+ "Starship " +:+ pretty i +:+ ":")].

(** [v.key] where the access does not throw. *)
Definition field (v : Val) (key : string) : Val :=
  match Get v key with
  | Ok x => x
  | Throw _ => VUndef
  end.

(** The lines of the vehicle display. *)
Definition vehicle_lines (v : Val) : list Line :=
  [Log [AStr (nl +:+ "Featured Vehicle:")];
   Log [AStr "Name:"; AVal (field v "name")];
   Log [AStr "Model:"; AVal (field v "model")];
   Log [AStr "Manufacturer:"; AVal (field v "manufacturer")];
   Log [AStr "Cost:"; AVal (field v "cost_in_credits"); AStr "credits"];
   Log [AStr "Length:"; AVal (field v "length")];
   Log [AStr "Crew Required:"; AVal (field v "crew")];
   Log [AStr "Passengers:"; AVal (field v "passengers")]].

(** ** What a display writes *)

(** [emits expected m]: the computation [m] changes nothing but the
    console, to which it appends lines: the first lines of [expected],
    and all of them when it completes. *)
Definition emits (expected : list Line) (m : M unit) : Prop :=
  forall s, exists lines,
    snd (m s) = set_console (fun c => c ++ lines) s /\
    lines `prefix_of` expected /\
    (fst (m s) = Ok tt -> lines = expected).

(** [completes m]: the computation [m] never throws. *)
Definition completes (m : M unit) : Prop := forall s, fst (m s) = Ok tt.

(** The lines of the elements of a list, which are numbered from
    [start]. *)
Fixpoint listing {A} (item : nat -> A -> list Line) (start : nat) (l : list A)
  : list Line :=
  match l with
  | [] => []
  | x :: rest => item start x ++ listing item (S start) rest
  end.

Definition defined (v : Val) : Prop := v <> VNull /\ v <> VUndef.

(** A value that a template literal or a concatenation can convert, and
    its text. *)
Definition converts `{Runtime} (v : Val) : Prop := exists s, ToString v = Ok s.

Definition text `{Runtime} (v : Val) : string :=
  match ToString v with
  | Ok s => s
  | Throw _ => ""
  end.

(** The lines of a starship. *)
Definition cost_text `{Runtime} (cost : Val) : string :=
  if is_not_unknown cost then text cost +:+ " credits" else "unknown".

Definition pilots_line `{Runtime} (starship : Val) : list Line :=
  match non_empty starship "pilots" with
  | Ok (Some len) => [Log [AStr "Pilots:"; AVal len]]
  | _ => []
  end.

Definition starship_lines `{Runtime} (index : nat) (starship : Val) : list Line :=
  [starship_heading (S index);
   Log [AStr "Name:"; AVal (field starship "name")];
   Log [AStr "Model:"; AVal (field starship "model")];
   Log [AStr "Manufacturer:"; AVal (field starship "manufacturer")];
   Log [AStr "Cost:"; AStr (cost_text (field starship "cost_in_credits"))];
   Log [AStr "Speed:"; AVal (field starship "max_atmosphering_speed")];
   Log [AStr "Hyperdrive Rating:"; AVal (field starship "hyperdrive_rating")]]
  ++ pilots_line starship.

(** A starship whose display cannot throw. *)
Definition shippable `{Runtime} (starship : Val) : Prop :=
  defined starship /\
  (is_not_unknown (field starship "cost_in_credits") = true ->
   converts (field starship "cost_in_credits")) /\
  exists pilots, non_empty starship "pilots" = Ok pilots.




(** [narrates m]: the computation [m] reads nothing of the state; it
    appends the same lines to the console and ends the same way wherever it
    runs. *)
Definition narrates {A} (m : M A) : Prop :=
  exists res lines, forall s, m s = (res, set_console (fun c => c ++ lines) s).

(** * The refactored fetcher

    The refactored variant of the script splits the fetcher into helpers
    that take the [resolve] and [reject] functions of its promise.  A
    promise is settled once: a later [resolve] or [reject] does nothing.
    The helpers never throw; what the caller awaits is the settlement.  As
    in the script, the request is followed up to that settlement, and what
    its handlers do afterwards is [lateEvents]. *)

Module Refactored.

(** A promise for an entry of the cache ([None] for [undefined]): pending,
    resolved or rejected. *)
Definition Promise : Type := option (Res (option nat)).

Definition resolve (value : option nat) (promise : Promise) : Promise :=
  match promise with
  | None => Some (Ok value)
  | Some _ => promise
  end.

Definition reject (error : Error) (promise : Promise) : Promise :=
  match promise with
  | None => Some (Throw error)
  | Some _ => promise
  end.

Definition getCachedData (resourcePath : string) : M (option nat) :=
  logDebug [AStr "Using cached data for"; AStr resourcePath];;
  gets (fun s => apiCache s !! resourcePath).

Definition cacheData (resourcePath : string) (data : nat) : M unit :=
  modify (set_apiCache (insert resourcePath data));;
  logDebug [AStr ("Successfully fetched data for " +:+ resourcePath)];;
  do size <- gets (fun s => size (apiCache s));
  logDebug [AStr ("Cache size: " +:+ pretty size)].

(** Returns whether the response may be read, with the promise. *)
Definition handleResponseStatus (statusCode : Z) (promise : Promise) : M (bool * Promise) :=
  if HTTP_ERROR_THRESHOLD <=? statusCode
  then incrementErrorCount;;
       mret (false, reject (HttpStatusError statusCode) promise)
  else mret (true, promise).

Definition parseResponseData `{Runtime} (responseData resourcePath : string)
    (promise : Promise) : M Promise :=
  match JSON_parse responseData with
  | Some parsedData =>
      do r <- alloc parsedData;
      cacheData resourcePath r;;
      mret (resolve (Some r) promise)
  | None => incrementErrorCount;; mret (reject ParseError promise)
  end.

Definition createRequest `{Runtime} (net : Network) (resourcePath : string)
    (promise : Promise) : M Promise :=
  do n <- gets (fun s => List.length (requests s));
  modify (set_requests (fun q => q ++ [resourcePath]));;
  match net n resourcePath with
  | OResponse statusCode chunks =>
      do checked <- handleResponseStatus statusCode promise;
      if fst checked
      then parseResponseData (fold_left String.append chunks "") resourcePath (snd checked)
      else mret (snd checked)
  | OError message =>
      incrementErrorCount;; mret (reject (NetworkError message) promise)
  | OTimeout =>
      incrementErrorCount;; mret (reject (TimeoutError resourcePath) promise)
  end.

(** The promise that [fetchFromApi] returns, as it is when the request has
    ended. *)
Definition fetchFromApi `{Runtime} (net : Network) (resourcePath : string) : M Promise :=
  record (EvFetch resourcePath);;
  do cached <- gets (fun s => isCached s resourcePath);
  if cached
  then do data <- getCachedData resourcePath; mret (Some (Ok data))
  else createRequest net resourcePath None.

End Refactored.

(** The settlement that corresponds to a completion of the fetcher. *)
Definition settled (result : Res nat) : Refactored.Promise :=
  match result with
  | Ok r => Some (Ok (Some r))
  | Throw e => Some (Throw e)
  end.

(** * The command line

    The variants of the script read their settings from the arguments of
    the command line.  The first script assigns whatever [parseInt] reads
    after [--timeout]; the variant with the logger assigns it only when it
    is a number greater than zero; the refactored script reads the debug
    flag only.  The timeout is kept as the integer that the digits denote,
    [None] for [NaN]; the script holds its rounding to binary64, which has
    the same sign. *)

Module CommandLine.

Definition REQUEST_TIMEOUT_DEFAULT : Z := 5000.

Record Settings : Type := {
  isDebugMode : bool;
  debugEnabled : bool;          (* the flag of the logger module *)
  requestTimeout : option Z
}.

Definition defaults : Settings :=
  {| isDebugMode := true; debugEnabled := false;
     requestTimeout := Some REQUEST_TIMEOUT_DEFAULT |}.

Definition set_debug (b : bool) (st : Settings) : Settings :=
  {| isDebugMode := b; debugEnabled := debugEnabled st; requestTimeout := requestTimeout st |}.

Definition set_logger (b : bool) (st : Settings) : Settings :=
  {| isDebugMode := isDebugMode st; debugEnabled := b; requestTimeout := requestTimeout st |}.

Definition set_timeout (t : option Z) (st : Settings) : Settings :=
  {| isDebugMode := isDebugMode st; debugEnabled := debugEnabled st; requestTimeout := t |}.

Definition enableDebug : Settings -> Settings := set_logger true.
Definition disableDebug : Settings -> Settings := set_logger false.

(** [args.includes(x)] and [args.indexOf(x)] on an array of strings. *)
Definition includes (args : list string) (x : string) : bool :=
  existsb (String.eqb x) args.

Fixpoint indexOf_from (args : list string) (x : string) (i : Z) : Z :=
  match args with
  | [] => -1
  | a :: rest => if String.eqb a x then i else indexOf_from rest x (i + 1)
  end.

Definition indexOf (args : list string) (x : string) : Z := indexOf_from args x 0.

(** [parseInt(args[i])]; an index out of range gives [undefined], which
    [parseInt] reads as the string ["undefined"]. *)
Definition parseInt_at (args : list string) (i : Z) : option Z :=
  parseInt_string
    (if i <? 0 then "undefined" else default "undefined" (args !! Z.to_nat i)).

(** [!isNaN(timeoutArg) && timeoutArg > 0] *)
Definition is_positive_number (timeoutArg : option Z) : bool :=
  match timeoutArg with
  | Some z => 0 <? z
  | None => false
  end.

(** The first script. *)
Definition processArgs_original (commandLineArgs : list string) (st : Settings) : Settings :=
  let st := if includes commandLineArgs "--no-debug" then set_debug false st else st in
  if includes commandLineArgs "--timeout"
  then
    let timeoutIndex := indexOf commandLineArgs "--timeout" in
    if timeoutIndex <? Z.of_nat (List.length commandLineArgs) - 1
    then set_timeout (parseInt_at commandLineArgs (timeoutIndex + 1)) st
    else st
  else st.

(** The variant with the logger. *)
Definition processArgs_logger (commandLineArgs : list string) (st : Settings) : Settings :=
  let st :=
    if includes commandLineArgs "--no-debug"
    then set_debug false (disableDebug st)
    else set_debug true (enableDebug st) in
  if includes commandLineArgs "--timeout"
  then
    let timeoutIndex := indexOf commandLineArgs "--timeout" in
    if timeoutIndex <? Z.of_nat (List.length commandLineArgs) - 1
    then
      let timeoutArg := parseInt_at commandLineArgs (timeoutIndex + 1) in
      if is_positive_number timeoutArg then set_timeout timeoutArg st else st
    else st
  else st.

(** [processCommandLineArgs] of the refactored script. *)
Definition processCommandLineArgs (args : list string) (st : Settings) : Settings :=
  set_debug (negb (includes args "--no-debug")) st.

End CommandLine.

(** * Properties *)

Section Properties.
Context `{Runtime}.
Implicit Types (s : State) (net : Network) (k : Kind) (r : nat) (e : Error).

(** ** Running a computation *)

Lemma run_mbind {A B} (f : A -> M B) (m : M A) s :
  (m ≫= f) s = match m s with
               | (Ok a, s') => f a s'
               | (Throw e, s') => (Throw e, s')
               end.
Proof. reflexivity. Qed.

Lemma run_bind {A B} (f : A -> M B) (m : M A) s :
  bind m f s = match m s with
               | (Ok a, s') => f a s'
               | (Throw e, s') => (Throw e, s')
               end.
Proof. reflexivity. Qed.

(** ** Frame conditions *)

Lemma keeps_ret {X A} (f : State -> X) (a : A) : keeps f (mret a).
Proof. intros s. reflexivity. Qed.

Lemma keeps_gets {X A} (f : State -> X) (g : State -> A) : keeps f (gets g).
Proof. intros s. reflexivity. Qed.

Lemma keeps_throw {X A} (f : State -> X) e : keeps f (throw (A := A) e).
Proof. intros s. reflexivity. Qed.

Lemma keeps_lift {X A} (f : State -> X) (x : Res A) : keeps f (lift x).
Proof. intros s. reflexivity. Qed.

Lemma keeps_modify {X} (f : State -> X) (g : State -> State) :
  (forall s, f (g s) = f s) -> keeps f (modify g).
Proof. intros Hg s. apply Hg. Qed.

Lemma keeps_mbind {X A B} (f : State -> X) (m : M A) (k : A -> M B) :
  keeps f m -> (forall a, keeps f (k a)) -> keeps f (m ≫= k).
Proof.
  intros Hm Hk s. rewrite run_mbind. specialize (Hm s).
  destruct (m s) as [[a|e] s']; simpl in *.
  - rewrite Hk. exact Hm.
  - exact Hm.
Qed.

Lemma keeps_try_catch {X A} (f : State -> X) (m : M A) (h : Error -> M A) :
  keeps f m -> (forall e, keeps f (h e)) -> keeps f (try_catch m h).
Proof.
  intros Hm Hh s. unfold try_catch. specialize (Hm s).
  destruct (m s) as [[a|e] s']; simpl in *.
  - exact Hm.
  - rewrite Hh. exact Hm.
Qed.

Lemma keeps_forEach {X A} (f : State -> X) (body : nat -> A -> M unit) (l : list A) :
  (forall i x, keeps f (body i x)) -> forall start, keeps f (forEach body start l).
Proof.
  intros Hbody. induction l as [|x l IH]; intros start; simpl.
  - apply keeps_ret.
  - apply keeps_mbind; [apply Hbody | intros _; apply IH].
Qed.

(** Decomposes a goal [keeps f m] along the structure of [m]. *)
Ltac keeps_step :=
  first
    [ apply keeps_mbind; [| intros ?]
    | apply keeps_ret
    | apply keeps_gets
    | apply keeps_throw
    | apply keeps_lift
    | apply keeps_modify; intros ?; reflexivity
    | apply keeps_forEach; intros ? ?
    | apply keeps_try_catch; [| intros ?]
    | match goal with
      | |- keeps _ (match ?x with _ => _ end) => destruct x
      end
    | intros ?; reflexivity ].

Ltac keeps_auto :=
  repeat (unfold bind, logDebug, console_log, console_error, record, deref,
            incrementErrorCount, log_property;
          keeps_step).

(** *** What the fetcher leaves alone *)

Lemma fetchFromApi_keeps_cursor net path : keeps lastCharacterId (fetchFromApi net path).
Proof. unfold fetchFromApi, createRequest, alloc. keeps_auto. Qed.

Lemma fetchFromApi_keeps_totalDataSize net path : keeps totalDataSize (fetchFromApi net path).
Proof. unfold fetchFromApi, createRequest, alloc. keeps_auto. Qed.

Lemma fetchFromApi_keeps_apiCallCount net path : keeps apiCallCount (fetchFromApi net path).
Proof. unfold fetchFromApi, createRequest, alloc. keeps_auto. Qed.

Lemma fetchFromApi_keeps_isDebugMode net path : keeps isDebugMode (fetchFromApi net path).
Proof. unfold fetchFromApi, createRequest, alloc. keeps_auto. Qed.

(** *** What the display functions leave alone *)

Ltac unfold_display :=
  simpl;
  unfold printCharacterData, printStarshipData, printLargePlanets, printFilmsData,
    printVehicleData, printStarship, printPlanet, printPlanetDetails, printFilm,
    store_results;
  keeps_auto.

Ltac display_keeps k := destruct k; unfold_display.

Lemma display_keeps_apiCache k r : keeps apiCache (display k r).
Proof. display_keeps k. Qed.

Lemma display_keeps_errorCount k r : keeps errorCount (display k r).
Proof. display_keeps k. Qed.

Lemma display_keeps_cursor k r : keeps lastCharacterId (display k r).
Proof. display_keeps k. Qed.

Lemma display_keeps_apiCallCount k r : keeps apiCallCount (display k r).
Proof. display_keeps k. Qed.

Lemma display_keeps_totalDataSize k r : keeps totalDataSize (display k r).
Proof. display_keeps k. Qed.

Lemma display_keeps_requests k r : keeps requests (display k r).
Proof. display_keeps k. Qed.

Lemma display_keeps_isDebugMode k r : keeps isDebugMode (display k r).
Proof. display_keeps k. Qed.

Lemma display_keeps_heap k r : k <> Films -> keeps heap (display k r).
Proof. intros Hk. destruct k; try congruence; clear Hk; unfold_display. Qed.

(** ** Stepping through a computation *)

Lemma run_ret {A B} (a : A) (f : A -> M B) s : (mret a ≫= f) s = f a s.
Proof. reflexivity. Qed.

Lemma run_gets {A B} (g : State -> A) (f : A -> M B) s : (gets g ≫= f) s = f (g s) s.
Proof. reflexivity. Qed.

Lemma run_modify {B} (g : State -> State) (f : unit -> M B) s :
  (modify g ≫= f) s = f tt (g s).
Proof. reflexivity. Qed.

Lemma run_throw {A B} e (f : A -> M B) s : (throw e ≫= f) s = (Throw e, s).
Proof. reflexivity. Qed.

Lemma run_lift {A B} (x : Res A) (f : A -> M B) s :
  (lift x ≫= f) s = match x with Ok a => f a s | Throw e => (Throw e, s) end.
Proof. destruct x; reflexivity. Qed.

Lemma logDebug_eq args s : logDebug args s = (Ok tt, logged args s).
Proof. unfold logDebug, logged, bind. rewrite run_gets. destruct (isDebugMode s); reflexivity. Qed.

Lemma run_logDebug {B} args (f : unit -> M B) s :
  (logDebug args ≫= f) s = f tt (logged args s).
Proof. rewrite run_mbind, logDebug_eq. reflexivity. Qed.

Lemma logged_fields args s :
  apiCache (logged args s) = apiCache s /\ heap (logged args s) = heap s /\
  isDebugMode (logged args s) = isDebugMode s /\ errorCount (logged args s) = errorCount s /\
  lastCharacterId (logged args s) = lastCharacterId s /\
  apiCallCount (logged args s) = apiCallCount s /\
  totalDataSize (logged args s) = totalDataSize s /\
  requests (logged args s) = requests s /\ trace (logged args s) = trace s.
Proof.
  assert (K : forall b : bool,
             let s' := if b then set_console (fun c => c ++ [Log args]) s else s in
             apiCache s' = apiCache s /\ heap s' = heap s /\
             isDebugMode s' = isDebugMode s /\ errorCount s' = errorCount s /\
             lastCharacterId s' = lastCharacterId s /\ apiCallCount s' = apiCallCount s /\
             totalDataSize s' = totalDataSize s /\ requests s' = requests s /\
             trace s' = trace s)
    by (intros []; simpl; repeat split; reflexivity).
  exact (K (isDebugMode s)).
Qed.

(** ** The fetcher, case by case *)

Lemma fetchFromApi_hit net path s r :
  cache_hit s path = Some r ->
  fetchFromApi net path s =
    (Ok r, logged [AStr "Using cached data for"; AStr path]
             (set_trace (fun t => t ++ [EvFetch path]) s)).
Proof.
  intros Hhit. unfold fetchFromApi, bind, record.
  rewrite run_modify, run_gets.
  change (cache_hit (set_trace _ s) path) with (cache_hit s path). rewrite Hhit.
  rewrite run_logDebug. reflexivity.
Qed.

Lemma fetchFromApi_miss_fails net path s e :
  cache_hit s path = None -> fails net path s e ->
  fetchFromApi net path s = (Throw e, failed_request path s).
Proof.
  intros Hmiss Hfail. unfold fetchFromApi, bind, record.
  rewrite run_modify, run_gets.
  change (cache_hit (set_trace _ s) path) with (cache_hit s path). rewrite Hmiss.
  unfold createRequest, bind, incrementErrorCount. rewrite run_gets, run_modify.
  change (List.length (requests (set_trace _ s))) with (List.length (requests s)).
  destruct Hfail as [m Hnet | Hnet | c ch Hnet Hc | c ch Hnet Hc Hparse]; rewrite Hnet.
  - reflexivity.
  - reflexivity.
  - apply Z.leb_le in Hc. rewrite Hc. reflexivity.
  - apply Z.leb_gt in Hc. rewrite Hc. simpl. rewrite Hparse. reflexivity.
Qed.

Lemma fetchFromApi_miss_succeeds net path s v :
  cache_hit s path = None -> succeeds net path s v ->
  fetchFromApi net path s = (Ok (List.length (heap s)), stored path v s).
Proof.
  intros Hmiss (c & ch & Hnet & Hc & Hparse). unfold fetchFromApi, bind, record.
  rewrite run_modify, run_gets.
  change (cache_hit (set_trace _ s) path) with (cache_hit s path). rewrite Hmiss.
  unfold createRequest, bind. rewrite run_gets, run_modify.
  change (List.length (requests (set_trace _ s))) with (List.length (requests s)).
  rewrite Hnet. apply Z.leb_gt in Hc. rewrite Hc. simpl. rewrite Hparse.
  rewrite run_mbind. unfold alloc at 1. rewrite run_modify, run_logDebug, run_gets, run_logDebug.
  reflexivity.
Qed.

(** Every call of the fetcher is one of the three cases. *)
Lemma fetchFromApi_cases net path s :
  (exists r, cache_hit s path = Some r) \/
  (cache_hit s path = None /\ exists e, fails net path s e) \/
  (cache_hit s path = None /\ exists v, succeeds net path s v).
Proof.
  destruct (cache_hit s path) as [r|] eqn:Hhit; [left; eauto | right].
  destruct (net (List.length (requests s)) path) as [m| |c ch] eqn:Hnet.
  - left. split; [reflexivity|]. eexists. eapply fails_error; eauto.
  - left. split; [reflexivity|]. eexists. eapply fails_timeout; eauto.
  - destruct (Z_lt_le_dec c HTTP_ERROR_THRESHOLD) as [Hc|Hc].
    + destruct (JSON_parse (fold_left String.append ch "")) as [v|] eqn:Hparse.
      * right. split; [reflexivity|]. exists v, c, ch. auto.
      * left. split; [reflexivity|]. eexists. eapply fails_parse; eauto.
    + left. split; [reflexivity|]. eexists. eapply fails_status; eauto.
Qed.

Lemma fetchFromApi_ok net path s r s1 :
  fetchFromApi net path s = (Ok r, s1) ->
  (cache_hit s path = Some r /\
   s1 = logged [AStr "Using cached data for"; AStr path]
          (set_trace (fun t => t ++ [EvFetch path]) s)) \/
  (cache_hit s path = None /\ r = List.length (heap s) /\
   exists v, succeeds net path s v /\ s1 = stored path v s).
Proof.
  intros Hrun.
  destruct (fetchFromApi_cases net path s) as [[r' Hhit] | [[Hmiss [e' Hf]] | [Hmiss [v Hv]]]].
  - rewrite (fetchFromApi_hit net path s r' Hhit) in Hrun. injection Hrun as <- <-. auto.
  - rewrite (fetchFromApi_miss_fails net path s e' Hmiss Hf) in Hrun. discriminate.
  - rewrite (fetchFromApi_miss_succeeds net path s v Hmiss Hv) in Hrun.
    injection Hrun as <- <-. right. eauto.
Qed.

Lemma fetchFromApi_throw net path s e s1 :
  fetchFromApi net path s = (Throw e, s1) ->
  cache_hit s path = None /\ fails net path s e /\ s1 = failed_request path s.
Proof.
  intros Hrun.
  destruct (fetchFromApi_cases net path s) as [[r' Hhit] | [[Hmiss [e' Hf]] | [Hmiss [v Hv]]]].
  - rewrite (fetchFromApi_hit net path s r' Hhit) in Hrun. discriminate.
  - rewrite (fetchFromApi_miss_fails net path s e' Hmiss Hf) in Hrun.
    injection Hrun as <- <-. auto.
  - rewrite (fetchFromApi_miss_succeeds net path s v Hmiss Hv) in Hrun. discriminate.
Qed.

Lemma stored_fields path v s :
  apiCache (stored path v s) = <[path := List.length (heap s)]> (apiCache s) /\
  heap (stored path v s) = heap s ++ [v] /\
  isDebugMode (stored path v s) = isDebugMode s /\
  errorCount (stored path v s) = errorCount s /\
  lastCharacterId (stored path v s) = lastCharacterId s /\
  apiCallCount (stored path v s) = apiCallCount s /\
  totalDataSize (stored path v s) = totalDataSize s /\
  requests (stored path v s) = requests s ++ [path] /\
  trace (stored path v s) = trace s ++ [EvFetch path].
Proof.
  unfold stored.
  repeat match goal with
         | |- context [logged ?a ?x] =>
             let K := fresh in
             pose proof (logged_fields a x) as K;
             destruct K as (-> & -> & -> & -> & -> & -> & -> & -> & ->)
         end.
  repeat split; reflexivity.
Qed.

(** A fetch that returns changes neither the error count nor the cursor,
    and is recorded once. *)
Lemma fetchFromApi_ok_fields net path s r s1 :
  fetchFromApi net path s = (Ok r, s1) ->
  errorCount s1 = errorCount s /\ lastCharacterId s1 = lastCharacterId s /\
  trace s1 = trace s ++ [EvFetch path] /\ isDebugMode s1 = isDebugMode s.
Proof.
  intros Hrun. apply fetchFromApi_ok in Hrun as [[_ ->] | (_ & _ & v & _ & ->)].
  - pose proof (logged_fields [AStr "Using cached data for"; AStr path]
                  (set_trace (fun t => t ++ [EvFetch path]) s)) as K.
    destruct K as (_ & _ & -> & -> & -> & _ & _ & _ & ->). repeat split; reflexivity.
  - pose proof (stored_fields path v s) as K.
    destruct K as (_ & _ & -> & -> & -> & _ & _ & _ & ->). repeat split; reflexivity.
Qed.

(** ** The display functions are recorded once *)

Lemma display_trace k r s : trace (snd (display k r s)) = trace s ++ [EvDisplay k].
Proof.
  destruct k; simpl;
    unfold printCharacterData, printStarshipData, printLargePlanets, printFilmsData,
      printVehicleData, record;
    rewrite run_modify;
    match goal with
    | |- trace (snd (?m ?x)) = _ =>
        let K := fresh in
        assert (K : keeps trace m) by unfold_display;
        rewrite (K x); reflexivity
    end.
Qed.

(** ** One step of a run *)

Lemma handleData_eq net k s :
  handleData net k s =
    match fetchFromApi net (resourcePath k s) s with
    | (Ok r, s1) => display k r (sized r s1)
    | (Throw e, s1) => (Throw e, s1)
    end.
Proof.
  unfold handleData, bind. rewrite run_gets, run_mbind.
  destruct (fetchFromApi net (resourcePath k s) s) as [[r|e] s1]; reflexivity.
Qed.

Lemma handleData_keeps_cursor net k : keeps lastCharacterId (handleData net k).
Proof.
  unfold handleData, addDataSize. keeps_auto. apply display_keeps_cursor.
Qed.

Lemma handleData_ok net k s s' :
  handleData net k s = (Ok tt, s') ->
  trace s' = trace s ++ step_events k s /\ errorCount s' = errorCount s /\
  lastCharacterId s' = lastCharacterId s.
Proof.
  intros Hrun. rewrite handleData_eq in Hrun.
  destruct (fetchFromApi net (resourcePath k s) s) as [[r|e] s1] eqn:Hfetch; [|discriminate].
  apply fetchFromApi_ok_fields in Hfetch as (He & Hc & Ht & _).
  pose proof (display_trace k r (sized r s1)) as Kt.
  pose proof (display_keeps_errorCount k r (sized r s1)) as Ke.
  pose proof (display_keeps_cursor k r (sized r s1)) as Kc.
  rewrite Hrun in Kt, Ke, Kc. simpl in Kt, Ke, Kc.
  rewrite Kt, Ke, Kc, Ht, He, Hc. unfold step_events.
  rewrite <- app_assoc. auto.
Qed.

(** The trace of a step, whether it completes or not. *)
Lemma handleData_trace net k s :
  exists evs, trace (snd (handleData net k s)) = trace s ++ evs /\
              evs `prefix_of` step_events k s.
Proof.
  rewrite handleData_eq.
  destruct (fetchFromApi net (resourcePath k s) s) as [[r|e] s1] eqn:Hfetch.
  - apply fetchFromApi_ok_fields in Hfetch as (_ & _ & Ht & _).
    exists (step_events k s). split; [|reflexivity].
    rewrite display_trace. simpl. rewrite Ht, <- app_assoc. reflexivity.
  - apply fetchFromApi_throw in Hfetch as (_ & _ & ->).
    exists [EvFetch (resourcePath k s)]. split; [reflexivity|].
    exists [EvDisplay k]. reflexivity.
Qed.

(** ** The points of a run

    The [try] block is the part before a step followed by the part from
    that step on. *)

Lemma handleAll_then {A} net ks (rest : M A) s :
  thenAll net ks rest s =
    match handleAll net ks s with
    | (Ok _, s') => rest s'
    | (Throw e, s') => (Throw e, s')
    end.
Proof.
  revert s. induction ks as [|j ks IH]; intros s; simpl.
  - reflexivity.
  - rewrite !run_mbind. destruct (handleData net j s) as [[[]|e] s1]; [apply IH | reflexivity].
Qed.

Lemma thenAll_app {A} net ks1 ks2 (rest : M A) :
  thenAll net (ks1 ++ ks2) rest = thenAll net ks1 (thenAll net ks2 rest).
Proof. unfold thenAll. apply fold_right_app. Qed.

Lemma tryBlock_split net k s :
  tryBlock net s =
    match runUpTo net k s with
    | (Ok _, sk) => runFrom net k sk
    | (Throw e, s') => (Throw e, s')
    end.
Proof.
  unfold tryBlock, runUpTo. rewrite !run_logDebug, !run_modify.
  rewrite <- handleAll_then. unfold runFrom. rewrite <- thenAll_app.
  destruct k; reflexivity.
Qed.

Lemma step_events_cursor s1 s ks :
  lastCharacterId s1 = lastCharacterId s ->
  flat_map (fun j => step_events j s1) ks = flat_map (fun j => step_events j s) ks.
Proof.
  intros Hc. apply flat_map_ext. intros j.
  unfold step_events, resourcePath. rewrite Hc. reflexivity.
Qed.

(** A run that reaches step [k] has completed the steps before it, and
    nothing else. *)
Lemma handleAll_ok net ks : forall s s',
  handleAll net ks s = (Ok tt, s') ->
  trace s' = trace s ++ flat_map (fun j => step_events j s) ks /\
  errorCount s' = errorCount s /\ lastCharacterId s' = lastCharacterId s.
Proof.
  induction ks as [|j ks IH]; intros s s' Hrun; simpl in Hrun.
  - injection Hrun as <-. simpl. rewrite app_nil_r. auto.
  - rewrite run_mbind in Hrun.
    destruct (handleData net j s) as [[[]|e] s1] eqn:Hj; [|discriminate].
    apply handleData_ok in Hj as (Ht & He & Hc).
    apply IH in Hrun as (Ht' & He' & Hc').
    rewrite Ht', He', Hc', Ht, He, Hc, (step_events_cursor s1 s ks Hc).
    simpl. rewrite <- app_assoc. auto.
Qed.

Lemma runUpTo_eq net k s : runUpTo net k s = handleAll net (preceding k) (started s).
Proof. unfold runUpTo. rewrite run_logDebug, run_modify. reflexivity. Qed.

Lemma started_fields s :
  trace (started s) = trace s /\ errorCount (started s) = errorCount s /\
  lastCharacterId (started s) = lastCharacterId s.
Proof.
  unfold started. simpl.
  pose proof (logged_fields [AStr "Starting data fetch..."] s) as K.
  destruct K as (_ & _ & _ & -> & -> & _ & _ & _ & ->). auto.
Qed.

Lemma runUpTo_ok net k s sk :
  runUpTo net k s = (Ok tt, sk) ->
  trace sk = trace s ++ flat_map (fun j => step_events j s) (preceding k) /\
  errorCount sk = errorCount s /\ lastCharacterId sk = lastCharacterId s.
Proof.
  rewrite runUpTo_eq. intros Hrun. apply handleAll_ok in Hrun as (Ht & He & Hc).
  destruct (started_fields s) as (Ht0 & He0 & Hc0).
  rewrite Ht, He, Hc, Ht0, He0, Hc0, (step_events_cursor (started s) s _ Hc0). auto.
Qed.

(** A step whose fetch fails ends the [try] block with that error. *)
Lemma runFrom_fails net k sk e s' :
  (k = Vehicle -> lastCharacterId sk <= MAX_VEHICLE_CHARACTER_ID) ->
  fetchFromApi net (resourcePath k sk) sk = (Throw e, s') ->
  runFrom net k sk = (Throw e, s').
Proof.
  intros Hguard Hfetch.
  assert (Hstep : handleData net k sk = (Throw e, s'))
    by (rewrite handleData_eq, Hfetch; reflexivity).
  unfold runFrom.
  destruct k; simpl; try (rewrite run_mbind, Hstep; reflexivity).
  rewrite run_mbind. unfold vehicleStep, bind, handleVehicleData.
  rewrite run_gets. apply Z.leb_le in Hguard; [|reflexivity]. rewrite Hguard.
  rewrite run_mbind, Hstep. reflexivity.
Qed.

Lemma fetchAndDisplayStarWarsData_eq net s :
  fetchAndDisplayStarWarsData net s =
    match tryBlock net s with
    | (Ok _, s') => (Ok tt, s')
    | (Throw e, s') => (Ok tt, caught e s')
    end.
Proof.
  unfold fetchAndDisplayStarWarsData, try_catch.
  destruct (tryBlock net s) as [[[]|e] s']; reflexivity.
Qed.

(** The orchestrator never throws. *)
Lemma run_returns net s : fst (fetchAndDisplayStarWarsData net s) = Ok tt.
Proof.
  rewrite fetchAndDisplayStarWarsData_eq.
  destruct (tryBlock net s) as [[[]|e] s']; reflexivity.
Qed.

Lemma run_fails_at net k s sk e s' :
  runUpTo net k s = (Ok tt, sk) ->
  (k = Vehicle -> lastCharacterId sk <= MAX_VEHICLE_CHARACTER_ID) ->
  fetchFromApi net (resourcePath k sk) sk = (Throw e, s') ->
  fetchAndDisplayStarWarsData net s = (Ok tt, caught e s').
Proof.
  intros Hup Hguard Hfetch.
  rewrite fetchAndDisplayStarWarsData_eq, (tryBlock_split net k), Hup.
  rewrite (runFrom_fails net k sk e s' Hguard Hfetch). reflexivity.
Qed.

(** ** A failed fetch inside a run *)

Lemma new_events_app (t evs : list Event) : drop (List.length t) (t ++ evs) = evs.
Proof. apply drop_app_length. Qed.

Lemma display_not_before k j s :
  (step_index k <= step_index j)%nat ->
  ~ In (EvDisplay j)
      (flat_map (fun i => step_events i s) (preceding k) ++ [EvFetch (resourcePath k s)]).
Proof.
  intros Hle Hin. apply in_app_or in Hin as [Hin | [Hin | []]]; [|discriminate].
  apply in_flat_map in Hin as (i & Hi & [Hin | [Hin | []]]); [discriminate|].
  injection Hin as ->.
  destruct k, j; simpl in Hi, Hle; unfold step_index in Hle; simpl in Hle;
    solve [lia | intuition discriminate].
Qed.

Lemma failed_fetch_run_state net k s sk e s' :
  runUpTo net k s = (Ok tt, sk) ->
  (k = Vehicle -> lastCharacterId sk <= MAX_VEHICLE_CHARACTER_ID) ->
  fetchFromApi net (resourcePath k sk) sk = (Throw e, s') ->
  snd (fetchAndDisplayStarWarsData net s) = caught e s'.
Proof.
  intros Hup Hguard Hfetch.
  rewrite (run_fails_at net k s sk e s' Hup Hguard Hfetch). reflexivity.
Qed.

(** C2: when the fetch of step [k] of a run fails, the run returns
    normally; what it called is the fetch and the display of each earlier
    step and then the failing fetch, so no display function of step [k] or
    of a later step and no later fetch; the failed request is the last one
    sent.  No run throws to its caller. *)
Theorem failed_fetch_aborts_run net k s sk e s' :
  runUpTo net k s = (Ok tt, sk) ->
  (k = Vehicle -> lastCharacterId sk <= MAX_VEHICLE_CHARACTER_ID) ->
  fetchFromApi net (resourcePath k sk) sk = (Throw e, s') ->
  let final := fetchAndDisplayStarWarsData net s in
  fst final = Ok tt /\
  trace (snd final) =
    trace s ++ flat_map (fun j => step_events j s) (preceding k)
            ++ [EvFetch (resourcePath k s)] /\
  requests (snd final) = requests sk ++ [resourcePath k s] /\
  (forall j, (step_index k <= step_index j)%nat ->
             ~ In (EvDisplay j) (drop (List.length (trace s)) (trace (snd final)))) /\
  (forall s0, fst (fetchAndDisplayStarWarsData net s0) = Ok tt).
Proof.
  intros Hup Hguard Hfetch final.
  assert (Hfinal : final = (Ok tt, caught e s'))
    by (apply (run_fails_at net k s sk e s' Hup Hguard Hfetch)).
  apply runUpTo_ok in Hup as (Ht & _ & Hc).
  apply fetchFromApi_throw in Hfetch as (_ & _ & ->).
  assert (Hpath : resourcePath k sk = resourcePath k s)
    by (unfold resourcePath; rewrite Hc; reflexivity).
  assert (Htrace : trace (snd final) =
            trace s ++ flat_map (fun j => step_events j s) (preceding k)
                    ++ [EvFetch (resourcePath k s)]).
  { rewrite Hfinal. simpl. rewrite Ht, Hpath, <- app_assoc. reflexivity. }
  repeat split.
  - rewrite Hfinal. reflexivity.
  - exact Htrace.
  - rewrite Hfinal. simpl. rewrite Hpath. reflexivity.
  - intros j Hle. rewrite Htrace, new_events_app. apply display_not_before, Hle.
  - intros s0. apply run_returns.
Qed.

(** C4, as the script has it: a fetch inside a run that fails with an HTTP
    status error has raised the error counter by two when the run returns,
    once in the fetcher and once in the [catch] block; from the failed step
    on the run writes nothing but the error line and calls no display
    function of that step.  The response was never read, so the timeout of
    the request is still armed then: when it fires, its callback counts a
    third error, and changes nothing else. *)
Theorem http_status_error_count net k s sk statusCode chunks :
  runUpTo net k s = (Ok tt, sk) ->
  (k = Vehicle -> lastCharacterId sk <= MAX_VEHICLE_CHARACTER_ID) ->
  cache_hit sk (resourcePath k sk) = None ->
  net (List.length (requests sk)) (resourcePath k sk) = OResponse statusCode chunks ->
  HTTP_ERROR_THRESHOLD <= statusCode ->
  let failed := fetchFromApi net (resourcePath k sk) sk in
  let final := snd (fetchAndDisplayStarWarsData net s) in
  let later := snd (lateEvents net (resourcePath k sk) sk final) in
  fst failed = Throw (HttpStatusError statusCode) /\
  errorCount (snd failed) = errorCount s + 1 /\
  errorCount final = errorCount s + 2 /\
  console final = console sk ++ [LogError [AStr "Error:"; AMessage (HttpStatusError statusCode)]] /\
  ~ In (EvDisplay k) (drop (List.length (trace s)) (trace final)) /\
  pendingEvent (net (List.length (requests sk)) (resourcePath k sk)) = Some TimeoutFires /\
  errorCount later = errorCount s + 3 /\
  later = set_errorCount (fun n => n + 1) final.
Proof.
  intros Hup Hguard Hmiss Hnet Hcode failed final later.
  assert (Hfails : fails net (resourcePath k sk) sk (HttpStatusError statusCode))
    by (eapply fails_status; eauto).
  assert (Hfetch : failed = (Throw (HttpStatusError statusCode),
                             failed_request (resourcePath k sk) sk))
    by (apply fetchFromApi_miss_fails; assumption).
  pose proof (failed_fetch_run_state net k s sk _ _ Hup Hguard Hfetch) as Hfinal.
  fold final in Hfinal.
  assert (Hpending : pendingEvent (net (List.length (requests sk)) (resourcePath k sk)) =
                     Some TimeoutFires).
  { rewrite Hnet. simpl. apply Z.leb_le in Hcode. rewrite Hcode. reflexivity. }
  assert (Hlater : later = set_errorCount (fun n => n + 1) final).
  { unfold later, lateEvents. rewrite Hmiss, Hpending. reflexivity. }
  apply runUpTo_ok in Hup as (Ht & He & Hc).
  assert (Hpath : resourcePath k sk = resourcePath k s)
    by (unfold resourcePath; rewrite Hc; reflexivity).
  split; [rewrite Hfetch; reflexivity|].
  split; [rewrite Hfetch; simpl; lia|].
  split; [rewrite Hfinal; simpl; lia|].
  split; [rewrite Hfinal; reflexivity|].
  split.
  { rewrite Hfinal. simpl. rewrite Ht, Hpath, <- app_assoc, new_events_app.
    apply display_not_before. lia. }
  split; [exact Hpending|].
  split; [|exact Hlater].
  rewrite Hlater, Hfinal. simpl. lia.
Qed.

(** C10: when the vehicle fetch of a run fails, the run leaves the cursor
    where it was, so the next run asks for the same vehicle. *)
Theorem failed_vehicle_fetch_keeps_cursor net s sk e s' :
  runUpTo net Vehicle s = (Ok tt, sk) ->
  lastCharacterId sk <= MAX_VEHICLE_CHARACTER_ID ->
  fetchFromApi net (resourcePath Vehicle sk) sk = (Throw e, s') ->
  let final := snd (fetchAndDisplayStarWarsData net s) in
  lastCharacterId final = lastCharacterId s /\
  resourcePath Vehicle final = resourcePath Vehicle s.
Proof.
  intros Hup Hguard Hfetch final.
  pose proof (failed_fetch_run_state net Vehicle s sk e s' Hup (fun _ => Hguard) Hfetch)
    as Hfinal.
  fold final in Hfinal.
  apply runUpTo_ok in Hup as (_ & _ & Hc).
  apply fetchFromApi_throw in Hfetch as (_ & _ & ->).
  assert (Hcursor : lastCharacterId final = lastCharacterId s)
    by (rewrite Hfinal; simpl; exact Hc).
  split; [exact Hcursor|]. unfold resourcePath. rewrite Hcursor. reflexivity.
Qed.

(** ** The fetcher and the cache *)

(** C7: when the body of the response does not parse, the call fails with
    the parse error, the cache and the stored values are as before, and
    the fetcher has counted one error. *)
Theorem parse_failure_leaves_cache net path s statusCode chunks :
  cache_hit s path = None ->
  net (List.length (requests s)) path = OResponse statusCode chunks ->
  statusCode < HTTP_ERROR_THRESHOLD ->
  JSON_parse (fold_left String.append chunks "") = None ->
  exists s', fetchFromApi net path s = (Throw ParseError, s') /\
             apiCache s' = apiCache s /\ heap s' = heap s /\
             errorCount s' = errorCount s + 1.
Proof.
  intros Hmiss Hnet Hcode Hparse. exists (failed_request path s). split.
  - apply fetchFromApi_miss_fails; [assumption|]. eapply fails_parse; eauto.
  - repeat split.
Qed.

Lemma cache_hit_falsy s path r v :
  apiCache s !! path = Some r -> heap s !! r = Some v -> truthy v = false ->
  cache_hit s path = None.
Proof. intros Hc Hh Hv. unfold cache_hit. rewrite Hc, Hh, Hv. reflexivity. Qed.

Lemma isCached_false s path : cache_hit s path = None -> isCached s path = false.
Proof.
  intros Hmiss. unfold isCached. rewrite Hmiss. apply bool_decide_eq_false.
  intros [x Hx]. discriminate.
Qed.

Lemma fetchFromApi_miss_requests net path s :
  cache_hit s path = None ->
  requests (snd (fetchFromApi net path s)) = requests s ++ [path].
Proof.
  intros Hmiss.
  destruct (fetchFromApi_cases net path s) as [[r' Hhit] | [[_ [e Hf]] | [_ [v Hv]]]].
  - congruence.
  - rewrite (fetchFromApi_miss_fails net path s e Hmiss Hf). reflexivity.
  - rewrite (fetchFromApi_miss_succeeds net path s v Hmiss Hv). simpl.
    apply (stored_fields path v s).
Qed.

(** C9: the cache is consulted by the truthiness of the stored value.  A
    path whose cached value is falsy is a miss: the fetcher sends a new
    request, and when that succeeds the entry is overwritten with the new
    value.  [null], [false], [0] and the empty string are falsy. *)
Theorem falsy_entry_is_refetched net path s r v :
  apiCache s !! path = Some r -> heap s !! r = Some v -> truthy v = false ->
  isCached s path = false /\
  requests (snd (fetchFromApi net path s)) = requests s ++ [path] /\
  (forall r' s', fetchFromApi net path s = (Ok r', s') ->
     r' <> r /\ apiCache s' !! path = Some r' /\
     exists v', succeeds net path s v' /\ heap s' !! r' = Some v') /\
  truthy VNull = false /\ truthy (VBool false) = false /\
  truthy (VNum PrimFloat.zero) = false /\ truthy (VStr "") = false.
Proof.
  intros Hc Hh Hv.
  pose proof (cache_hit_falsy s path r v Hc Hh Hv) as Hmiss.
  split; [apply isCached_false, Hmiss|].
  split; [apply fetchFromApi_miss_requests, Hmiss|].
  split; [|repeat split].
  intros r' s' Hrun.
  apply fetchFromApi_ok in Hrun as [[Hhit _] | (_ & -> & v' & Hv' & ->)]; [congruence|].
  destruct (stored_fields path v' s) as (-> & -> & _).
  split; [|split].
  - apply lookup_lt_Some in Hh. lia.
  - apply lookup_insert_eq.
  - exists v'. split; [exact Hv'|]. apply list_lookup_middle. reflexivity.
Qed.

(** ** What a computation writes *)

Lemma writes_nothing {A} Q (m : M A) : keeps console m -> writes Q m.
Proof. intros Hm s. exists []. rewrite Hm, app_nil_r. auto. Qed.

Lemma writes_log Q args : Q (Log args) -> writes Q (console_log args).
Proof. intros HQ s. exists [Log args]. split; [reflexivity | auto]. Qed.

Lemma writes_mbind {A B} Q (m : M A) (f : A -> M B) :
  writes Q m -> (forall a, writes Q (f a)) -> writes Q (m ≫= f).
Proof.
  intros Hm Hf s. rewrite run_mbind. destruct (Hm s) as (l1 & E1 & F1).
  destruct (m s) as [[a|e] s1]; simpl in *.
  - destruct (Hf a s1) as (l2 & E2 & F2). exists (l1 ++ l2).
    rewrite E2, E1, app_assoc. split; [reflexivity | apply Forall_app; auto].
  - exists l1. auto.
Qed.

Lemma writes_lift {A B} Q (x : Res A) (f : A -> M B) :
  (forall a, x = Ok a -> writes Q (f a)) -> writes Q (lift x ≫= f).
Proof.
  intros Hf s. rewrite run_lift. destruct x as [a|e].
  - apply Hf. reflexivity.
  - exists []. simpl. rewrite app_nil_r. auto.
Qed.

Lemma writes_forEach {A} Q (body : nat -> A -> M unit) (l : list A) :
  (forall i x, In x l -> writes Q (body i x)) -> forall start, writes Q (forEach body start l).
Proof.
  induction l as [|x l IH]; intros Hbody start; simpl.
  - apply writes_nothing, keeps_ret.
  - apply writes_mbind; [apply Hbody; left; reflexivity|].
    intros _. apply IH. intros i y Hy. apply Hbody. right. exact Hy.
Qed.

(** ** The planets filter *)

Lemma greater_than_spec n bound :
  greater_than n bound = true -> exists z, n = Some z /\ bound < z.
Proof.
  destruct n as [z|]; simpl; [|discriminate].
  intros Hlt. exists z. split; [reflexivity | apply Z.ltb_lt, Hlt].
Qed.

Lemma is_not_unknown_spec v : is_not_unknown v = true -> v <> VStr "unknown".
Proof. intros Hv ->. discriminate. Qed.

Lemma largePlanetCondition_true planet population diameter :
  largePlanetCondition planet = Ok true ->
  Get planet "population" = Ok population -> Get planet "diameter" = Ok diameter ->
  large_and_populated population diameter.
Proof.
  unfold largePlanetCondition, bind. intros Hcond Hp Hd. rewrite Hp in Hcond.
  simpl in Hcond.
  destruct (is_not_unknown population) eqn:Hnp; [|discriminate].
  destruct (parseInt population) as [n|e] eqn:Hpp; [|discriminate]. simpl in Hcond.
  destruct (greater_than n MIN_POPULATION) eqn:Hgp; [|discriminate].
  rewrite Hd in Hcond. simpl in Hcond.
  destruct (is_not_unknown diameter) eqn:Hnd; [|discriminate].
  destruct (parseInt diameter) as [m|e] eqn:Hpd; [|discriminate]. simpl in Hcond.
  injection Hcond as Hgd.
  apply greater_than_spec in Hgp as (p & -> & Hp').
  apply greater_than_spec in Hgd as (d & -> & Hd').
  exists p, d. repeat split; auto using is_not_unknown_spec.
Qed.

Lemma largePlanetCondition_unknown planet :
  Get planet "population" = Ok (VStr "unknown") -> largePlanetCondition planet = Ok false.
Proof. intros Hp. unfold largePlanetCondition, bind. rewrite Hp. reflexivity. Qed.

Lemma largePlanetCondition_minimum planet population :
  Get planet "population" = Ok population ->
  parseInt population = Ok (Some MIN_POPULATION) ->
  largePlanetCondition planet = Ok false.
Proof.
  intros Hp Hparse. unfold largePlanetCondition, bind. rewrite Hp. simpl.
  rewrite Hparse. simpl. destruct (is_not_unknown population); reflexivity.
Qed.

(** The refactored predicate agrees with the inline condition whenever it
    returns. *)
Lemma isLargeAndPopulated_inline planet b :
  isLargeAndPopulated planet = Ok b -> largePlanetCondition planet = Ok b.
Proof.
  unfold isLargeAndPopulated, largePlanetCondition, bind.
  destruct (Get planet "population") as [population|]; [|discriminate]. simpl.
  destruct (parseInt population) as [n|]; [|discriminate]. simpl.
  destruct (Get planet "diameter") as [diameter|]; [|discriminate]. simpl.
  destruct (parseInt diameter) as [m|]; [|discriminate]. simpl.
  intros Hb. injection Hb as <-.
  destruct (is_not_unknown population), (greater_than n MIN_POPULATION),
    (is_not_unknown diameter); reflexivity.
Qed.

Lemma printPlanet_writes index planet : writes planet_line_ok (printPlanet index planet).
Proof.
  unfold printPlanet, bind. apply writes_lift. intros [|] Hcond.
  2: { apply writes_nothing, keeps_ret. }
  unfold printPlanetDetails, bind.
  apply writes_lift. intros name _.
  apply writes_lift. intros population Hp.
  apply writes_lift. intros diameter Hd.
  apply writes_lift. intros climate _.
  apply writes_mbind.
  - apply writes_log. intros n p d c Heq. injection Heq as _ <- <- _.
    eapply largePlanetCondition_true; eauto.
  - intros _. apply writes_lift. intros [len|] _.
    + apply writes_lift. intros text _. apply writes_log. intros n p d c Heq. discriminate.
    + apply writes_nothing, keeps_ret.
Qed.

Lemma printLargePlanets_writes r : writes planet_line_ok (printLargePlanets r).
Proof.
  unfold printLargePlanets, bind, record, deref.
  apply writes_mbind; [apply writes_nothing, keeps_modify; reflexivity|]. intros _.
  apply writes_mbind; [apply writes_nothing, keeps_gets|]. intros planetsData.
  apply writes_mbind; [apply writes_log; intros n p d c Heq; discriminate|]. intros _.
  apply writes_lift. intros results _.
  destruct results; try (apply writes_nothing, keeps_throw).
  apply writes_forEach. intros i planet _. apply printPlanet_writes.
Qed.

(** C5: every planet line that [printLargePlanets] writes shows a
    population that parses above [MIN_POPULATION] and a diameter that
    parses above [MIN_DIAMETER].  A planet whose population parses to
    exactly [MIN_POPULATION], and a planet whose population is
    ['unknown'], whatever its diameter, is not displayed.  The predicate
    [isLargeAndPopulated] of the refactored script holds only of planets
    that satisfy the same bounds. *)
Theorem large_planets_only :
  (forall r s name population diameter climate,
      In (planet_line name population diameter climate)
         (drop (List.length (console s)) (console (snd (printLargePlanets r s)))) ->
      large_and_populated population diameter) /\
  (forall planet population,
      Get planet "population" = Ok population ->
      parseInt population = Ok (Some MIN_POPULATION) \/ population = VStr "unknown" ->
      largePlanetCondition planet = Ok false /\
      forall index s, console (snd (printPlanet index planet s)) = console s) /\
  (forall planet population diameter,
      isLargeAndPopulated planet = Ok true ->
      Get planet "population" = Ok population -> Get planet "diameter" = Ok diameter ->
      large_and_populated population diameter).
Proof.
  split; [|split].
  - intros r s name population diameter climate Hin.
    destruct (printLargePlanets_writes r s) as (lines & Hc & Hall).
    rewrite Hc, drop_app_length in Hin.
    rewrite Forall_forall in Hall. apply list_elem_of_In in Hin.
    eapply (Hall _ Hin). reflexivity.
  - intros planet population Hp Hcase.
    assert (Hcond : largePlanetCondition planet = Ok false).
    { destruct Hcase as [Hparse | ->].
      - eapply largePlanetCondition_minimum; eauto.
      - apply largePlanetCondition_unknown, Hp. }
    split; [exact Hcond|]. intros index s.
    unfold printPlanet, bind. rewrite run_lift, Hcond. reflexivity.
  - intros planet population diameter Hlarge.
    apply largePlanetCondition_true, isLargeAndPopulated_inline, Hlarge.
Qed.

(** ** Sorting with a consistent comparator

    When the comparator is the difference of a key, the sort of the
    platform is the stable sort by that key. *)

Section Sorting.
Context {A : Type} (compare : A -> A -> Res (option Z)) (key : A -> Z) (good : A -> Prop).
Hypothesis compare_key :
  forall x y, good x -> good y -> compare x y = Ok (Some (key x - key y)).

Lemma insert_by_perm x l : insert_by key x l ≡ₚ x :: l.
Proof.
  induction l as [|y l IH]; simpl; [reflexivity|].
  destruct (key y <? key x); [|reflexivity].
  rewrite IH. apply Permutation_swap.
Qed.

Lemma sort_by_perm l : sort_by key l ≡ₚ l.
Proof.
  induction l as [|x l IH]; simpl; [reflexivity|].
  rewrite insert_by_perm, IH. reflexivity.
Qed.

Lemma insert_by_sorted x l :
  StronglySorted (key_le key) l -> StronglySorted (key_le key) (insert_by key x l).
Proof.
  induction 1 as [|y l Hl IH Hy]; simpl.
  - repeat constructor.
  - destruct (key y <? key x) eqn:Hlt.
    + apply Z.ltb_lt in Hlt. constructor; [exact IH|].
      rewrite insert_by_perm. constructor; [unfold key_le; lia | exact Hy].
    + apply Z.ltb_ge in Hlt. constructor; [constructor; assumption|].
      constructor; [exact Hlt|].
      eapply Forall_impl; [exact Hy|]. unfold key_le. intros z Hz. lia.
Qed.

Lemma sort_by_sorted l : StronglySorted (key_le key) (sort_by key l).
Proof.
  induction l as [|x l IH]; simpl; [constructor | apply insert_by_sorted, IH].
Qed.



Lemma sort_insert_by x l :
  good x -> Forall good l -> sort_insert compare x l = Ok (insert_by key x l).
Proof.
  intros Hx Hl. induction Hl as [|y l Hy Hl IH]; [reflexivity|].
  cbn [sort_insert insert_by]. unfold bind. rewrite (compare_key x y Hx Hy).
  simpl. replace (0 <? key x - key y) with (key y <? key x)
    by (destruct (Z.ltb_spec (key y) (key x)), (Z.ltb_spec 0 (key x - key y)); lia).
  destruct (key y <? key x); [|reflexivity]. rewrite IH. reflexivity.
Qed.

Lemma sort_defined_by l : Forall good l -> sort_defined compare l = Ok (sort_by key l).
Proof.
  induction 1 as [|x l Hx Hl IH]; [reflexivity|].
  cbn [sort_defined sort_by]. unfold bind. rewrite IH. simpl.
  apply sort_insert_by; [exact Hx|]. rewrite sort_by_perm. exact Hl.
Qed.

End Sorting.

(** ** The films display *)

Lemma compareReleaseDates_key filmA filmB :
  dated filmA -> dated filmB ->
  compareReleaseDates filmA filmB = Ok (Some (release_key filmA - release_key filmB)).
Proof.
  intros [ta Ha] [tb Hb]. unfold release_key. rewrite Ha, Hb.
  unfold compareReleaseDates, releaseTime, bind in *.
  destruct (Get filmA "release_date") as [ra|]; [|discriminate]. simpl in *. rewrite Ha.
  destruct (Get filmB "release_date") as [rb|]; [|discriminate]. simpl in *. rewrite Hb.
  reflexivity.
Qed.

Lemma dated_defined film : dated film -> is_undefined film = false.
Proof. intros [t Ht]. destruct film; try reflexivity. discriminate. Qed.

Lemma filter_defined films :
  Forall dated films ->
  List.filter (fun v => negb (is_undefined v)) films = films /\
  List.filter is_undefined films = [].
Proof.
  induction 1 as [|film films Hf _ [IH1 IH2]]; [split; reflexivity|].
  simpl. rewrite (dated_defined film Hf). simpl. rewrite IH1, IH2. split; reflexivity.
Qed.

Lemma Array_sort_dated films :
  Forall dated films ->
  Array_sort compareReleaseDates films = Ok (sort_by release_key films).
Proof.
  intros Hall. unfold Array_sort, bind.
  destruct (filter_defined films Hall) as [-> ->].
  rewrite (sort_defined_by compareReleaseDates release_key dated
             compareReleaseDates_key films Hall).
  simpl. rewrite app_nil_r. reflexivity.
Qed.

(** The sort returns a rearrangement of the array, whatever the comparator. *)
Lemma sort_insert_perm {A} (compare : A -> A -> Res (option Z)) x l l' :
  sort_insert compare x l = Ok l' -> l' ≡ₚ x :: l.
Proof.
  revert l'. induction l as [|y l IH]; intros l' Hrun; simpl in Hrun.
  - injection Hrun as <-. reflexivity.
  - unfold bind in Hrun. destruct (compare x y) as [c|]; [|discriminate]. simpl in Hrun.
    destruct (0 <? default 0 c).
    + destruct (sort_insert compare x l) as [rest|]; [|discriminate]. simpl in Hrun.
      injection Hrun as <-. rewrite (IH rest eq_refl). apply Permutation_swap.
    + injection Hrun as <-. reflexivity.
Qed.

Lemma sort_defined_perm {A} (compare : A -> A -> Res (option Z)) l l' :
  sort_defined compare l = Ok l' -> l' ≡ₚ l.
Proof.
  revert l'. induction l as [|x l IH]; intros l' Hrun; simpl in Hrun.
  - injection Hrun as <-. reflexivity.
  - unfold bind in Hrun. destruct (sort_defined compare l) as [sorted|]; [|discriminate].
    simpl in Hrun. apply sort_insert_perm in Hrun. rewrite Hrun, (IH sorted eq_refl).
    reflexivity.
Qed.

Lemma filter_partition_perm {A} (p : A -> bool) l :
  List.filter (fun x => negb (p x)) l ++ List.filter p l ≡ₚ l.
Proof.
  induction l as [|x l IH]; [reflexivity|]. simpl. destruct (p x); simpl.
  - rewrite <- Permutation_middle, IH. reflexivity.
  - rewrite IH. reflexivity.
Qed.

Lemma Array_sort_perm compare l l' : Array_sort compare l = Ok l' -> l' ≡ₚ l.
Proof.
  unfold Array_sort, bind. intros Hrun.
  destruct (sort_defined compare _) as [sorted|] eqn:Hs; [|discriminate].
  simpl in Hrun. injection Hrun as <-. apply sort_defined_perm in Hs.
  rewrite Hs. apply filter_partition_perm.
Qed.

Lemma printFilmsData_sorted r s props films sorted :
  heap s !! r = Some (VObj props) ->
  own_property props "results" = VArr films ->
  Array_sort compareReleaseDates films = Ok sorted ->
  printFilmsData r s = forEach printFilm 0 sorted (films_sorted r props sorted s).
Proof.
  intros Hr Hres Hsort. unfold printFilmsData, bind, record, deref.
  rewrite run_modify, run_gets.
  change (heap (set_trace _ s)) with (heap s). rewrite Hr. simpl default.
  rewrite run_lift. simpl Get. rewrite Hres, run_lift, Hsort.
  unfold store_results, console_log. rewrite !run_modify.
  unfold films_sorted. do 2 f_equal. unfold set_heap.
  change (heap (set_trace _ s)) with (heap s). rewrite Hr. reflexivity.
Qed.

(** In every other case the display of the films leaves the heap alone. *)
Lemma printFilmsData_heap r s :
  heap (snd (printFilmsData r s)) = heap s \/
  exists props films sorted,
    heap s !! r = Some (VObj props) /\ own_property props "results" = VArr films /\
    Array_sort compareReleaseDates films = Ok sorted /\
    heap (snd (printFilmsData r s)) =
      <[r := VObj (set_property props "results" (VArr sorted))]> (heap s).
Proof.
  destruct (heap s !! r) as [v|] eqn:Hr.
  2: { left. unfold printFilmsData, bind, record, deref. rewrite run_modify, run_gets.
       change (heap (set_trace _ s)) with (heap s). rewrite Hr. reflexivity. }
  assert (Hstart : printFilmsData r s =
            (do results <- lift (Get v "results");
             match results with
             | VArr films =>
                 do sortedFilms <- lift (Array_sort compareReleaseDates films);
                 store_results r sortedFilms;;
                 console_log [AStr (nl +:+ "Star Wars Films in chronological order:")];;
                 forEach printFilm 0 sortedFilms
             | _ => throw TypeError
             end) (set_trace (fun t => t ++ [EvDisplay Films]) s)).
  { unfold printFilmsData, bind, record, deref. rewrite run_modify, run_gets.
    change (heap (set_trace _ s)) with (heap s). rewrite Hr. reflexivity. }
  destruct v as [| | | | |elems|props];
    try (left; rewrite Hstart; reflexivity).
  destruct (own_property props "results") as [| | | | |films|] eqn:Hres;
    try (left; rewrite Hstart; unfold bind; rewrite run_lift; simpl; rewrite Hres;
         reflexivity).
  destruct (Array_sort compareReleaseDates films) as [sorted|e] eqn:Hsort.
  - right. exists props, films, sorted. repeat split; try assumption.
    rewrite (printFilmsData_sorted r s props films sorted Hr Hres Hsort).
    assert (K : keeps heap (forEach printFilm 0 sorted))
      by (apply keeps_forEach; intros i x; unfold printFilm; keeps_auto).
    rewrite K. reflexivity.
  - left. rewrite Hstart. unfold bind. rewrite run_lift. simpl. rewrite Hres.
    rewrite run_lift, Hsort. reflexivity.
Qed.


(** ** The display functions and the state *)

(** C8, as the script has it: a display function changes no counter, not
    the cursor and not the cache map, sends no request and leaves every
    stored value but its payload alone.  The displays of the character, the
    starships, the planets and the vehicle leave the payload alone as well.
    The display of the films sorts the [results] array of its payload in
    place: when the payload is an object whose [results] is an array and
    the comparator does not throw, the payload, which is the cached value,
    has its films replaced by the sorted films, a rearrangement of them
    that is the stable sort by release date when every release date
    parses; the payload is as it was when the comparator throws or there
    is no such array. *)
Theorem display_frame k r s :
  let s' := snd (display k r s) in
  apiCache s' = apiCache s /\ errorCount s' = errorCount s /\
  lastCharacterId s' = lastCharacterId s /\ apiCallCount s' = apiCallCount s /\
  totalDataSize s' = totalDataSize s /\ requests s' = requests s /\
  isDebugMode s' = isDebugMode s /\
  (forall r', r' <> r -> heap s' !! r' = heap s !! r') /\
  (k <> Films -> heap s' = heap s) /\
  (k = Films ->
     forall props films,
       heap s !! r = Some (VObj props) -> own_property props "results" = VArr films ->
       match Array_sort compareReleaseDates films with
       | Ok _ =>
           exists sorted,
             heap s' = <[r := VObj (set_property props "results" (VArr sorted))]> (heap s) /\
             sorted ≡ₚ films /\
             (Forall dated films -> sorted = sort_by release_key films)
       | Throw _ => heap s' = heap s
       end) /\
  (k = Films ->
     (forall props films,
        heap s !! r = Some (VObj props) -> own_property props "results" <> VArr films) ->
     heap s' = heap s).
Proof.
  intros s'. subst s'.
  split; [apply display_keeps_apiCache|].
  split; [apply display_keeps_errorCount|].
  split; [apply display_keeps_cursor|].
  split; [apply display_keeps_apiCallCount|].
  split; [apply display_keeps_totalDataSize|].
  split; [apply display_keeps_requests|].
  split; [apply display_keeps_isDebugMode|].
  split.
  { intros r' Hne. destruct (decide (k = Films)) as [->|Hk].
    - simpl.
      destruct (printFilmsData_heap r s) as [-> | (props & films & sorted & _ & _ & _ & ->)];
        [reflexivity|].
      apply list_lookup_insert_ne. congruence.
    - rewrite (display_keeps_heap k r Hk). reflexivity. }
  split; [intros Hk; apply (display_keeps_heap k r Hk)|].
  split.
  - intros -> props films Hr Hres. simpl.
    destruct (Array_sort compareReleaseDates films) as [sorted|err] eqn:Hsort.
    + exists sorted. split; [|split].
      * rewrite (printFilmsData_sorted r s props films sorted Hr Hres Hsort).
        assert (K : keeps heap (forEach printFilm 0 sorted))
          by (apply keeps_forEach; intros i x; unfold printFilm; keeps_auto).
        rewrite K. reflexivity.
      * apply Array_sort_perm in Hsort. exact Hsort.
      * intros Hall. pose proof (Array_sort_dated films Hall) as Hdated. congruence.
    + destruct (printFilmsData_heap r s)
        as [Hsame | (props' & films' & sorted' & Hr' & Hres' & Hsort' & _)];
        [exact Hsame|].
      assert (props' = props) as -> by congruence.
      assert (films' = films) as -> by congruence.
      congruence.
  - intros -> Hnone. simpl.
    destruct (printFilmsData_heap r s)
      as [Hsame | (props & films & sorted & Hr & Hres & _)]; [exact Hsame|].
    destruct (Hnone props films Hr Hres).
Qed.

(** ** Cached values that stay

    Every call of the fetcher and every run extends the state it starts
    from. *)

Lemma cache_hit_Some s path r :
  cache_hit s path = Some r <->
  apiCache s !! path = Some r /\ exists v, heap s !! r = Some v /\ truthy v = true.
Proof.
  unfold cache_hit. split.
  - destruct (apiCache s !! path) as [r0|]; [|discriminate].
    destruct (heap s !! r0) as [v|] eqn:Hv; [|discriminate].
    destruct (truthy v) eqn:Ht; [|discriminate].
    intros Heq. injection Heq as <-. eauto.
  - intros (-> & v & -> & ->). reflexivity.
Qed.

Lemma extends_hit s s' path r :
  extends s s' -> cache_hit s path = Some r -> cache_hit s' path = Some r.
Proof.
  intros [Hheap Hcache] Hhit. apply cache_hit_Some.
  split; [apply Hcache, Hhit|].
  apply cache_hit_Some in Hhit as (_ & v & Hv & Ht).
  destruct (Hheap r v Hv) as (v' & Hv' & Ht'). exists v'. split; [exact Hv' | congruence].
Qed.

Lemma extends_refl s : extends s s.
Proof.
  split.
  - intros r v Hv. eauto.
  - intros path r Hhit. apply cache_hit_Some in Hhit. tauto.
Qed.

Lemma extends_trans s1 s2 s3 : extends s1 s2 -> extends s2 s3 -> extends s1 s3.
Proof.
  intros H12 H23. split.
  - intros r v Hv. destruct (proj1 H12 r v Hv) as (v2 & Hv2 & Ht2).
    destruct (proj1 H23 r v2 Hv2) as (v3 & Hv3 & Ht3). exists v3. split; congruence.
  - intros path r Hhit. apply (proj2 H23). eapply extends_hit; eauto.
Qed.

Lemma extends_same s s' :
  heap s' = heap s -> apiCache s' = apiCache s -> extends s s'.
Proof.
  intros Hh Hc. split.
  - intros r v Hv. rewrite Hh. eauto.
  - intros path r Hhit. rewrite Hc. apply cache_hit_Some in Hhit. tauto.
Qed.

Lemma stable_keeps {A} (m : M A) : keeps heap m -> keeps apiCache m -> stable m.
Proof. intros Hh Hc s. apply extends_same; [apply Hh | apply Hc]. Qed.

Lemma stable_mbind {A B} (m : M A) (f : A -> M B) :
  stable m -> (forall a, stable (f a)) -> stable (m ≫= f).
Proof.
  intros Hm Hf s. rewrite run_mbind. specialize (Hm s).
  destruct (m s) as [[a|e] s1]; simpl in *; [|exact Hm].
  eapply extends_trans; [exact Hm | apply Hf].
Qed.

Lemma stable_try_catch {A} (m : M A) (h : Error -> M A) :
  stable m -> (forall e, stable (h e)) -> stable (try_catch m h).
Proof.
  intros Hm Hh s. unfold try_catch. specialize (Hm s).
  destruct (m s) as [[a|e] s1]; simpl in *; [exact Hm|].
  eapply extends_trans; [exact Hm | apply Hh].
Qed.

Lemma fetchFromApi_stable net path : stable (fetchFromApi net path).
Proof.
  intros s.
  destruct (fetchFromApi_cases net path s) as [[r Hhit] | [[Hmiss [e Hf]] | [Hmiss [v Hv]]]].
  - rewrite (fetchFromApi_hit net path s r Hhit). simpl.
    destruct (logged_fields [AStr "Using cached data for"; AStr path]
                (set_trace (fun t => t ++ [EvFetch path]) s)) as (Hc & Hh & _).
    apply extends_same; assumption.
  - rewrite (fetchFromApi_miss_fails net path s e Hmiss Hf). simpl.
    apply extends_same; reflexivity.
  - rewrite (fetchFromApi_miss_succeeds net path s v Hmiss Hv). simpl.
    destruct (stored_fields path v s) as (Hc & Hh & _). split.
    + intros r0 v0 Hv0. rewrite Hh. exists v0. split; [|reflexivity].
      apply lookup_app_l_Some, Hv0.
    + intros p r0 Hhit. rewrite Hc.
      destruct (decide (path = p)) as [->|Hne]; [congruence|].
      rewrite lookup_insert_ne by exact Hne. apply cache_hit_Some in Hhit. tauto.
Qed.

Lemma display_stable k r : stable (display k r).
Proof.
  destruct (decide (k = Films)) as [->|Hk].
  2: { apply stable_keeps; [apply display_keeps_heap, Hk | apply display_keeps_apiCache]. }
  intros s. pose proof (display_keeps_apiCache Films r s) as Hc. simpl in *.
  destruct (printFilmsData_heap r s) as [Hh | (props & films & sorted & Hr & _ & _ & Hh)].
  - apply extends_same; assumption.
  - split.
    + intros r0 v0 Hv0. rewrite Hh. destruct (decide (r0 = r)) as [->|Hne].
      * eexists. split; [apply list_lookup_insert_eq; eapply lookup_lt_Some; eauto|].
        rewrite Hr in Hv0. injection Hv0 as <-. reflexivity.
      * exists v0. rewrite list_lookup_insert_ne by congruence. auto.
    + intros path r0 Hhit. rewrite Hc. apply cache_hit_Some in Hhit. tauto.
Qed.

Lemma handleData_stable net k : stable (handleData net k).
Proof.
  unfold handleData, bind.
  apply stable_mbind; [apply stable_keeps; apply keeps_gets|]. intros path.
  apply stable_mbind; [apply fetchFromApi_stable|]. intros r.
  apply stable_mbind; [|intros _; apply display_stable].
  apply stable_keeps; unfold addDataSize; keeps_auto.
Qed.

Lemma fetchAndDisplayStarWarsData_stable net : stable (fetchAndDisplayStarWarsData net).
Proof.
  assert (Hquiet : forall args, stable (logDebug args))
    by (intros args; apply stable_keeps; keeps_auto).
  unfold fetchAndDisplayStarWarsData. apply stable_try_catch.
  - unfold tryBlock, handleCharacterData, handleStarshipsData, handlePlanetsData,
      handleFilmsData.
    repeat (apply stable_mbind;
            [first [apply Hquiet | apply handleData_stable
                   | solve [apply stable_keeps; keeps_auto]] | intros _]).
    apply stable_mbind.
    + unfold vehicleStep, bind. apply stable_mbind; [apply stable_keeps; apply keeps_gets|].
      intros id. destruct (id <=? MAX_VEHICLE_CHARACTER_ID).
      * apply stable_mbind; [apply handleData_stable|].
        intros _. apply stable_keeps; keeps_auto.
      * apply stable_keeps; apply keeps_ret.
    + intros _. apply stable_keeps; unfold printStats; keeps_auto.
  - intros e. apply stable_keeps; unfold catchBlock; keeps_auto.
Qed.

Lemma exec_app net ops1 ops2 s :
  exec net (ops1 ++ ops2) s = exec net ops2 (exec net ops1 s).
Proof. unfold exec. apply fold_left_app. Qed.

Lemma step_extends net op s : extends s (step net op s).
Proof.
  destruct op as [path|]; simpl.
  - apply fetchFromApi_stable.
  - apply fetchAndDisplayStarWarsData_stable.
Qed.

Lemma exec_extends net ops : forall s, extends s (exec net ops s).
Proof.
  induction ops as [|op ops IH]; intros s; simpl.
  - apply extends_refl.
  - eapply extends_trans; [apply step_extends | apply IH].
Qed.

(** C1, as the script has it, for a path that is no inherited name: a
    fetch of the path that succeeds leaves the path cached at the address
    it returns, whatever the value there, and on a miss that address is
    new and holds the parsed body.  When the value there is truthy, then
    after whatever the process does next the entry is still that address,
    and a fetch of the path returns it without a request and without a
    change to the byte counter, the error counter, the cache or the stored
    values. *)
Theorem cached_value_is_reused net path s r s1 :
  inherited path = false ->
  fetchFromApi net path s = (Ok r, s1) ->
  apiCache s1 !! path = Some r /\
  (exists v, heap s1 !! r = Some v) /\
  (cache_hit s path = None ->
     r = List.length (heap s) /\
     exists v, succeeds net path s v /\ heap s1 !! r = Some v) /\
  ((exists v, heap s1 !! r = Some v /\ truthy v = true) ->
   forall ops,
     let s2 := exec net ops s1 in
     apiCache s2 !! path = Some r /\
     exists s3, fetchFromApi net path s2 = (Ok r, s3) /\
                requests s3 = requests s2 /\ totalDataSize s3 = totalDataSize s2 /\
                errorCount s3 = errorCount s2 /\ apiCache s3 = apiCache s2 /\
                heap s3 = heap s2).
Proof.
  intros _ Hrun.
  assert (Hentry : apiCache s1 !! path = Some r /\ exists v, heap s1 !! r = Some v).
  { apply fetchFromApi_ok in Hrun as [[Hhit ->] | (_ & -> & v & _ & ->)].
    - destruct (logged_fields [AStr "Using cached data for"; AStr path]
                  (set_trace (fun t => t ++ [EvFetch path]) s)) as (-> & -> & _).
      apply cache_hit_Some in Hhit as (Hentry & v & Hv & _). eauto.
    - destruct (stored_fields path v s) as (-> & -> & _).
      split; [apply lookup_insert_eq|]. exists v. apply list_lookup_middle. reflexivity. }
  destruct Hentry as [Hentry Hvalue].
  split; [exact Hentry|]. split; [exact Hvalue|]. split.
  - intros Hmiss.
    apply fetchFromApi_ok in Hrun as [[Hhit _] | (_ & -> & v & Hv & ->)]; [congruence|].
    split; [reflexivity|]. exists v. split; [exact Hv|].
    destruct (stored_fields path v s) as (_ & -> & _). apply list_lookup_middle. reflexivity.
  - intros Htruthy ops s2.
    assert (Hhit1 : cache_hit s1 path = Some r) by (apply cache_hit_Some; auto).
    assert (Hhit2 : cache_hit s2 path = Some r)
      by (apply (extends_hit s1 s2 path r (exec_extends net ops s1) Hhit1)).
    split; [apply cache_hit_Some in Hhit2; tauto|].
    eexists. split; [apply (fetchFromApi_hit net path s2 r Hhit2)|].
    destruct (logged_fields [AStr "Using cached data for"; AStr path]
                (set_trace (fun t => t ++ [EvFetch path]) s2))
      as (-> & -> & _ & -> & _ & _ & -> & -> & _).
    repeat split.
Qed.

(** ** The cursor *)

Lemma handleAll_keeps_cursor net ks : keeps lastCharacterId (handleAll net ks).
Proof.
  induction ks as [|j ks IH]; simpl.
  - apply keeps_ret.
  - apply keeps_mbind; [apply handleData_keeps_cursor | intros _; exact IH].
Qed.

Lemma printStats_keeps {X} (f : State -> X) :
  (forall g s, f (set_console g s) = f s) -> keeps f printStats.
Proof.
  intros Hf. unfold printStats, bind, logDebug, console_log.
  repeat first [ apply keeps_mbind; [|intros ?] | apply keeps_gets | apply keeps_ret
               | apply keeps_modify; intros ?; apply Hf
               | match goal with |- keeps _ (if ?b then _ else _) => destruct b end ].
Qed.

(** The cursor after the rest of a run that has reached the vehicle step. *)
Lemma runFrom_Vehicle_cursor net sk :
  let s' := snd (runFrom net Vehicle sk) in
  lastCharacterId s' = lastCharacterId sk \/
  (lastCharacterId sk <= MAX_VEHICLE_CHARACTER_ID /\
   lastCharacterId s' = lastCharacterId sk + 1).
Proof.
  unfold runFrom. simpl. rewrite run_mbind. unfold vehicleStep, bind. rewrite run_gets.
  destruct (lastCharacterId sk <=? MAX_VEHICLE_CHARACTER_ID) eqn:Hguard.
  - apply Z.leb_le in Hguard. rewrite run_mbind. unfold handleVehicleData.
    pose proof (handleData_keeps_cursor net Vehicle sk) as Hk.
    destruct (handleData net Vehicle sk) as [[[]|e] s1]; simpl in Hk.
    + right. split; [exact Hguard|]. unfold modify. cbv beta iota.
      rewrite (printStats_keeps lastCharacterId) by reflexivity. simpl. lia.
    + left. exact Hk.
  - left. exact (printStats_keeps lastCharacterId (fun _ _ => eq_refl) sk).
Qed.

Lemma runUpTo_keeps_cursor net k : keeps lastCharacterId (runUpTo net k).
Proof.
  intros s. rewrite runUpTo_eq, handleAll_keeps_cursor. apply started_fields.
Qed.

Lemma run_cursor net s :
  let s' := snd (fetchAndDisplayStarWarsData net s) in
  lastCharacterId s' = lastCharacterId s \/
  (lastCharacterId s <= MAX_VEHICLE_CHARACTER_ID /\
   lastCharacterId s' = lastCharacterId s + 1).
Proof.
  simpl. rewrite fetchAndDisplayStarWarsData_eq, (tryBlock_split net Vehicle).
  pose proof (runUpTo_keeps_cursor net Vehicle s) as Hup.
  destruct (runUpTo net Vehicle s) as [[[]|e] sk]; simpl in Hup.
  - pose proof (runFrom_Vehicle_cursor net sk) as Hrest. simpl in Hrest.
    rewrite Hup in Hrest.
    destruct (runFrom net Vehicle sk) as [[[]|e] s']; simpl in *; exact Hrest.
  - left. exact Hup.
Qed.

Lemma step_cursor net op s :
  let s' := step net op s in
  lastCharacterId s' = lastCharacterId s \/
  (lastCharacterId s <= MAX_VEHICLE_CHARACTER_ID /\
   lastCharacterId s' = lastCharacterId s + 1).
Proof.
  destruct op as [path|]; simpl.
  - left. apply fetchFromApi_keeps_cursor.
  - apply run_cursor.
Qed.

Lemma exec_cursor net ops : forall s,
  lastCharacterId s <= lastCharacterId (exec net ops s) /\
  (lastCharacterId s <= MAX_VEHICLE_CHARACTER_ID + 1 ->
   lastCharacterId (exec net ops s) <= MAX_VEHICLE_CHARACTER_ID + 1).
Proof.
  induction ops as [|op ops IH]; intros s; simpl; [lia|].
  destruct (IH (step net op s)) as [Hmono Hbound].
  pose proof (step_cursor net op s) as Hstep. simpl in Hstep. lia.
Qed.

(** *** A run that skips the vehicle step *)

Lemma handleAll_trace net ks : forall s,
  exists evs, trace (snd (handleAll net ks s)) = trace s ++ evs /\
              evs `prefix_of` flat_map (fun j => step_events j s) ks.
Proof.
  induction ks as [|j ks IH]; intros s; simpl.
  - exists []. rewrite app_nil_r. split; reflexivity.
  - rewrite run_mbind. destruct (handleData net j s) as [[[]|e] s1] eqn:Hj.
    + apply handleData_ok in Hj as (Ht & _ & Hc).
      destruct (IH s1) as (evs & Hevs & Hpre). exists (step_events j s ++ evs).
      rewrite Hevs, Ht, <- app_assoc. split; [reflexivity|].
      rewrite <- (step_events_cursor s1 s ks Hc).
      apply (prefix_app (step_events j s)), Hpre.
    + destruct (handleData_trace net j s) as (evs & Hevs & Hpre). rewrite Hj in Hevs.
      exists evs. split; [exact Hevs|].
      apply (prefix_app_r evs (step_events j s)), Hpre.
Qed.

Lemma run_skips_vehicle net s :
  MAX_VEHICLE_CHARACTER_ID < lastCharacterId s ->
  drop (List.length (trace s)) (trace (snd (fetchAndDisplayStarWarsData net s)))
    `prefix_of` flat_map (fun j => step_events j s) (preceding Vehicle).
Proof.
  intros Hguard.
  assert (Htrace : trace (snd (fetchAndDisplayStarWarsData net s)) =
                   trace (snd (runUpTo net Vehicle s))).
  { rewrite fetchAndDisplayStarWarsData_eq, (tryBlock_split net Vehicle).
    pose proof (runUpTo_keeps_cursor net Vehicle s) as Hc.
    destruct (runUpTo net Vehicle s) as [[[]|e] sk]; simpl in Hc; [|reflexivity].
    unfold runFrom. simpl thenAll. rewrite run_mbind. unfold vehicleStep, bind.
    rewrite run_gets.
    replace (lastCharacterId sk <=? MAX_VEHICLE_CHARACTER_ID) with false
      by (symmetry; apply Z.leb_gt; lia).
    change ((mret tt : M unit) sk) with (Ok tt, sk). cbv beta iota.
    pose proof (printStats_keeps trace (fun _ _ => eq_refl) sk) as Hp.
    destruct (printStats sk) as [[[]|e] s']; simpl in *; exact Hp. }
  rewrite Htrace, runUpTo_eq.
  destruct (handleAll_trace net (preceding Vehicle) (started s)) as (evs & -> & Hpre).
  destruct (started_fields s) as (-> & _ & Hc).
  rewrite drop_app_length, <- (step_events_cursor (started s) s _ Hc). exact Hpre.
Qed.

Lemma no_vehicle_event s (evs : list Event) :
  evs `prefix_of` flat_map (fun j => step_events j s) (preceding Vehicle) ->
  ~ In (EvDisplay Vehicle) evs /\ ~ In (EvFetch (resourcePath Vehicle s)) evs.
Proof.
  intros [rest Hpre].
  assert (Hin : forall ev, In ev evs ->
            In ev (flat_map (fun j => step_events j s) (preceding Vehicle)))
    by (intros ev Hev; rewrite Hpre; apply in_or_app; left; exact Hev).
  split; intros Hev; apply Hin in Hev; simpl in Hev;
    repeat (destruct Hev as [Hev|Hev]; [discriminate Hev|]); exact Hev.
Qed.

(** C3, as the script has it: the cursor starts at 1, no call of the
    fetcher or of the orchestrator lowers it, a run raises it by at most
    one, and it never exceeds [MAX_VEHICLE_CHARACTER_ID + 1].  Once it
    exceeds [MAX_VEHICLE_CHARACTER_ID] a run calls only the fetcher and the
    display functions of the first four steps, and the cursor stays where
    it is for the rest of the process. *)
Theorem cursor_invariant net debug ops s :
  s = exec net ops (init_state debug) ->
  lastCharacterId (init_state debug) = 1 /\
  1 <= lastCharacterId s <= MAX_VEHICLE_CHARACTER_ID + 1 /\
  (forall path, lastCharacterId (snd (fetchFromApi net path s)) = lastCharacterId s) /\
  (let s' := snd (fetchAndDisplayStarWarsData net s) in
   lastCharacterId s <= lastCharacterId s' <= lastCharacterId s + 1) /\
  (forall more, lastCharacterId s <= lastCharacterId (exec net more s)) /\
  (MAX_VEHICLE_CHARACTER_ID < lastCharacterId s ->
   let s' := snd (fetchAndDisplayStarWarsData net s) in
   let called := drop (List.length (trace s)) (trace s') in
   lastCharacterId s' = lastCharacterId s /\
   called `prefix_of` flat_map (fun j => step_events j s) (preceding Vehicle) /\
   ~ In (EvDisplay Vehicle) called /\ ~ In (EvFetch (resourcePath Vehicle s)) called /\
   forall more, lastCharacterId (exec net more s) = lastCharacterId s).
Proof.
  intros ->. set (s := exec net ops (init_state debug)).
  assert (Hrange : 1 <= lastCharacterId s <= MAX_VEHICLE_CHARACTER_ID + 1).
  { destruct (exec_cursor net ops (init_state debug)) as [Hmono Hbound].
    fold s in Hmono, Hbound. simpl in Hmono, Hbound.
    unfold MAX_VEHICLE_CHARACTER_ID in *. lia. }
  pose proof (run_cursor net s) as Hrun. simpl in Hrun.
  split; [reflexivity|]. split; [exact Hrange|].
  split; [intros path; apply fetchFromApi_keeps_cursor|].
  split; [simpl; lia|].
  split; [intros more; apply exec_cursor|].
  intros Hguard s' called.
  pose proof (run_skips_vehicle net s Hguard) as Hpre. fold s' called in Hpre.
  destruct (no_vehicle_event s called Hpre) as [Hd Hf].
  split; [subst s'; lia|]. split; [exact Hpre|]. split; [exact Hd|]. split; [exact Hf|].
  intros more. destruct (exec_cursor net more s) as [Hmono Hbound]. lia.
Qed.


(** * More of the script *)

(** ** The fetcher *)

(** Whatever makes a call of the fetcher fail, the call has sent one
    request, and when its promise is rejected it has counted one error and
    left the cache, the stored values, the byte counter, the cursor and the
    console alone.  The error is one of the four of the fetcher.  After a
    timeout and after a status of [HTTP_ERROR_THRESHOLD] or more the
    request counts a second error later on (the ['error'] that
    [request.abort()] raises, the timeout that was left armed); after a
    network error and after a body that does not parse it counts no
    more. *)
Theorem fetch_failure_counts net path s e s' :
  fetchFromApi net path s = (Throw e, s') ->
  errorCount s' = errorCount s + 1 /\
  requests s' = requests s ++ [path] /\
  apiCache s' = apiCache s /\ heap s' = heap s /\
  totalDataSize s' = totalDataSize s /\ lastCharacterId s' = lastCharacterId s /\
  console s' = console s /\
  isCached s path = false /\ fails net path s e /\ e <> TypeError /\
  snd (lateEvents net path s s') =
    match e with
    | TimeoutError _ | HttpStatusError _ => set_errorCount (fun n => n + 1) s'
    | _ => s'
    end.
Proof.
  intros Hrun. apply fetchFromApi_throw in Hrun as (Hmiss & Hfail & ->).
  split; [reflexivity|]. split; [reflexivity|]. split; [reflexivity|].
  split; [reflexivity|]. split; [reflexivity|]. split; [reflexivity|].
  split; [reflexivity|].
  split; [apply isCached_false, Hmiss|].
  split; [exact Hfail|].
  split; [destruct Hfail; discriminate|].
  unfold lateEvents. rewrite Hmiss.
  destruct Hfail as [m Hnet | Hnet | c ch Hnet Hc | c ch Hnet Hc Hparse]; rewrite Hnet; simpl.
  - reflexivity.
  - reflexivity.
  - apply Z.leb_le in Hc. rewrite Hc. reflexivity.
  - apply Z.leb_gt in Hc. rewrite Hc. reflexivity.
Qed.

Lemma isCached_true s path :
  isCached s path = true <-> exists r, cache_hit s path = Some r.
Proof.
  unfold isCached. rewrite bool_decide_eq_true. split; intros [r Hr]; exists r; exact Hr.
Qed.

(** A call of the fetcher for a path that is no inherited name sends a
    request exactly when [isCached] is false, and then only one.  A call
    on a cached path returns the cached address and changes neither the
    cache, the stored values nor a counter. *)
Theorem fetch_requests_on_miss_only net path s :
  inherited path = false ->
  let s' := snd (fetchFromApi net path s) in
  requests s' = requests s ++ (if isCached s path then [] else [path]) /\
  (isCached s path = true ->
   exists r, fst (fetchFromApi net path s) = Ok r /\ apiCache s !! path = Some r /\
             apiCache s' = apiCache s /\ heap s' = heap s /\
             errorCount s' = errorCount s /\ totalDataSize s' = totalDataSize s).
Proof.
  intros _. simpl. destruct (cache_hit s path) as [r|] eqn:Hhit.
  - assert (Hc : isCached s path = true) by (apply isCached_true; eauto).
    rewrite Hc, (fetchFromApi_hit net path s r Hhit). simpl.
    destruct (logged_fields [AStr "Using cached data for"; AStr path]
                (set_trace (fun t => t ++ [EvFetch path]) s))
      as (-> & -> & _ & -> & _ & _ & -> & -> & _).
    split; [simpl; rewrite app_nil_r; reflexivity|].
    intros _. exists r. apply cache_hit_Some in Hhit. repeat split; tauto.
  - rewrite (isCached_false s path Hhit). split; [|discriminate].
    apply fetchFromApi_miss_requests, Hhit.
Qed.

Lemma logged_quiet args s : isDebugMode s = false -> logged args s = s.
Proof. intros Hd. unfold logged. rewrite Hd. reflexivity. Qed.

(** With debugging off neither the fetcher nor [printStats] writes to the
    console. *)
Theorem quiet_without_debug net path s :
  isDebugMode s = false ->
  console (snd (fetchFromApi net path s)) = console s /\
  console (snd (printStats s)) = console s.
Proof.
  intros Hd. split.
  - destruct (fetchFromApi_cases net path s) as [[r Hhit] | [[Hmiss [e Hf]] | [Hmiss [v Hv]]]].
    + rewrite (fetchFromApi_hit net path s r Hhit), logged_quiet by exact Hd. reflexivity.
    + rewrite (fetchFromApi_miss_fails net path s e Hmiss Hf). reflexivity.
    + rewrite (fetchFromApi_miss_succeeds net path s v Hmiss Hv). unfold stored.
      match goal with
      | |- context [logged _ ?x] =>
          lazymatch x with
          | logged _ _ => fail
          | _ => rewrite !(logged_quiet _ x Hd)
          end
      end.
      reflexivity.
  - unfold printStats, bind.
    repeat (rewrite run_logDebug, (logged_quiet _ s Hd) || rewrite run_gets).
    rewrite logDebug_eq, logged_quiet by exact Hd. reflexivity.
Qed.


(** ** Runs *)

Lemma handleData_keeps_apiCallCount net k : keeps apiCallCount (handleData net k).
Proof.
  unfold handleData, addDataSize, bind.
  apply keeps_mbind; [apply keeps_gets|]. intros path.
  apply keeps_mbind; [apply fetchFromApi_keeps_apiCallCount|]. intros r.
  apply keeps_mbind; [keeps_auto | intros _; apply display_keeps_apiCallCount].
Qed.

Lemma handleAll_keeps_apiCallCount net ks : keeps apiCallCount (handleAll net ks).
Proof.
  induction ks as [|j ks IH]; simpl.
  - apply keeps_ret.
  - apply keeps_mbind; [apply handleData_keeps_apiCallCount | intros _; exact IH].
Qed.

Lemma run_apiCallCount net s :
  apiCallCount (snd (fetchAndDisplayStarWarsData net s)) = apiCallCount s + 1.
Proof.
  assert (Hstart : apiCallCount (started s) = apiCallCount s + 1).
  { unfold started. simpl.
    destruct (logged_fields [AStr "Starting data fetch..."] s) as (_&_&_&_&_& -> &_).
    reflexivity. }
  assert (Hrest : keeps apiCallCount (runFrom net Vehicle)).
  { unfold runFrom. simpl. apply keeps_mbind.
    - unfold vehicleStep, bind. apply keeps_mbind; [apply keeps_gets|]. intros id.
      destruct (id <=? MAX_VEHICLE_CHARACTER_ID); [|apply keeps_ret].
      apply keeps_mbind; [apply handleData_keeps_apiCallCount|]. intros _. keeps_auto.
    - intros _. apply (printStats_keeps apiCallCount). reflexivity. }
  rewrite fetchAndDisplayStarWarsData_eq, (tryBlock_split net Vehicle), runUpTo_eq.
  pose proof (handleAll_keeps_apiCallCount net (preceding Vehicle) (started s)) as Hup.
  destruct (handleAll net (preceding Vehicle) (started s)) as [[[]|e] sk]; simpl in Hup.
  - pose proof (Hrest sk) as Hr. clear Hrest.
    destruct (runFrom net Vehicle sk) as [[[]|e] s']; simpl in Hr |- *; rewrite Hr, Hup;
      exact Hstart.
  - simpl. rewrite Hup. exact Hstart.
Qed.

(** [apiCallCount] counts the runs: every run raises it by one, however
    the run ends, and a call of the fetcher leaves it alone. *)
Theorem apiCallCount_counts_runs net ops s :
  apiCallCount (exec net ops s) =
    apiCallCount s + Z.of_nat (List.length (List.filter is_run ops)).
Proof.
  revert s. induction ops as [|op ops IH]; intros s; simpl; [lia|].
  change (fold_left (fun s0 op0 => step net op0 s0) ops (step net op s))
    with (exec net ops (step net op s)).
  rewrite IH. destruct op as [path|]; simpl.
  - rewrite fetchFromApi_keeps_apiCallCount. lia.
  - rewrite run_apiCallCount. lia.
Qed.

(** A step that fails, in the fetch or in the display, ends the [try]
    block with its error. *)
Lemma runFrom_step_fails net k sk e s' :
  (k = Vehicle -> lastCharacterId sk <= MAX_VEHICLE_CHARACTER_ID) ->
  handleData net k sk = (Throw e, s') ->
  runFrom net k sk = (Throw e, s').
Proof.
  intros Hguard Hstep. unfold runFrom.
  destruct k; simpl; try (rewrite run_mbind, Hstep; reflexivity).
  rewrite run_mbind. unfold vehicleStep, bind, handleVehicleData.
  rewrite run_gets. apply Z.leb_le in Hguard; [|reflexivity]. rewrite Hguard.
  rewrite run_mbind, Hstep. reflexivity.
Qed.

(** When the fetch of a step succeeds and its display function throws
    (a payload that is [null], a [results] that is no array, ...), the run
    returns normally and has counted one error, not two; the size of the
    payload is in the byte counter, the cursor is where it was, and no
    later step has run. *)
Theorem display_error_counted_once net k s sk r s1 e s2 :
  runUpTo net k s = (Ok tt, sk) ->
  (k = Vehicle -> lastCharacterId sk <= MAX_VEHICLE_CHARACTER_ID) ->
  fetchFromApi net (resourcePath k sk) sk = (Ok r, s1) ->
  display k r (sized r s1) = (Throw e, s2) ->
  let final := fetchAndDisplayStarWarsData net s in
  fst final = Ok tt /\
  errorCount (snd final) = errorCount s + 1 /\
  lastCharacterId (snd final) = lastCharacterId s /\
  totalDataSize (snd final) = totalDataSize (sized r s1) /\
  trace (snd final) =
    trace s ++ flat_map (fun j => step_events j s) (preceding k) ++ step_events k s /\
  last (console (snd final)) = Some (LogError [AStr "Error:"; AMessage e]).
Proof.
  intros Hup Hguard Hfetch Hshow final.
  assert (Hstep : handleData net k sk = (Throw e, s2))
    by (rewrite handleData_eq, Hfetch; exact Hshow).
  assert (Hfinal : final = (Ok tt, caught e s2)).
  { unfold final.
    rewrite fetchAndDisplayStarWarsData_eq, (tryBlock_split net k), Hup.
    rewrite (runFrom_step_fails net k sk e s2 Hguard Hstep). reflexivity. }
  apply runUpTo_ok in Hup as (Ht & He & Hc).
  apply fetchFromApi_ok_fields in Hfetch as (He1 & Hc1 & Ht1 & _).
  pose proof (display_trace k r (sized r s1)) as Kt.
  pose proof (display_keeps_errorCount k r (sized r s1)) as Ke.
  pose proof (display_keeps_cursor k r (sized r s1)) as Kc.
  pose proof (display_keeps_totalDataSize k r (sized r s1)) as Kd.
  rewrite Hshow in Kt, Ke, Kc, Kd. simpl in Kt, Ke, Kc, Kd.
  assert (Hpath : resourcePath k sk = resourcePath k s)
    by (unfold resourcePath; rewrite Hc; reflexivity).
  rewrite Hfinal. simpl. repeat split.
  - lia.
  - lia.
  - exact Kd.
  - rewrite Kt, Ht1, Ht, Hpath. unfold step_events. rewrite <- !app_assoc. reflexivity.
  - apply last_snoc.
Qed.

Lemma printStats_returns s : fst (printStats s) = Ok tt.
Proof.
  unfold printStats, bind.
  repeat (rewrite run_logDebug || rewrite run_gets).
  rewrite logDebug_eq. reflexivity.
Qed.

(** A run in which all five steps complete: the cursor has advanced by
    one, no error has been counted, and the run has called the fetcher and
    the display function of each step, in order. *)
Theorem complete_run_advances_cursor net s sk s5 :
  runUpTo net Vehicle s = (Ok tt, sk) ->
  lastCharacterId sk <= MAX_VEHICLE_CHARACTER_ID ->
  handleData net Vehicle sk = (Ok tt, s5) ->
  let final := fetchAndDisplayStarWarsData net s in
  fst final = Ok tt /\
  lastCharacterId (snd final) = lastCharacterId s + 1 /\
  errorCount (snd final) = errorCount s /\
  trace (snd final) =
    trace s ++ flat_map (fun j => step_events j s)
                 [Character; Starships; Planets; Films; Vehicle].
Proof.
  intros Hup Hguard Hstep final.
  assert (Hfinal : final = printStats (set_lastCharacterId (fun n => n + 1) s5)).
  { unfold final.
    rewrite fetchAndDisplayStarWarsData_eq, (tryBlock_split net Vehicle), Hup.
    unfold runFrom. simpl thenAll. rewrite run_mbind. unfold vehicleStep, bind.
    rewrite run_gets. apply Z.leb_le in Hguard. rewrite Hguard.
    rewrite run_mbind. unfold handleVehicleData. rewrite Hstep.
    unfold modify. cbv beta iota.
    pose proof (printStats_returns (set_lastCharacterId (fun n => n + 1) s5)) as Hp.
    destruct (printStats (set_lastCharacterId (fun n => n + 1) s5)) as [[[]|e] s'];
      [reflexivity | discriminate]. }
  apply runUpTo_ok in Hup as (Ht & He & Hc).
  apply handleData_ok in Hstep as (Ht5 & He5 & Hc5).
  assert (Hev : step_events Vehicle sk = step_events Vehicle s)
    by (unfold step_events, resourcePath; rewrite Hc; reflexivity).
  rewrite Hfinal. split; [apply printStats_returns|].
  rewrite (printStats_keeps lastCharacterId), (printStats_keeps errorCount),
    (printStats_keeps trace) by reflexivity.
  simpl. rewrite Hc5, He5, Ht5, Hc, He, Ht, Hev. repeat split.
  rewrite <- app_assoc. reflexivity.
Qed.


(** ** Properties that every call keeps *)

Lemma preserves_mbind {A B} Inv (m : M A) (f : A -> M B) :
  preserves Inv m -> (forall a, preserves Inv (f a)) -> preserves Inv (m ≫= f).
Proof.
  intros Hm Hf s Hs. rewrite run_mbind. specialize (Hm s Hs).
  destruct (m s) as [[a|e] s1]; simpl in *; [apply Hf, Hm | exact Hm].
Qed.

Lemma preserves_try_catch {A} Inv (m : M A) (h : Error -> M A) :
  preserves Inv m -> (forall e, preserves Inv (h e)) -> preserves Inv (try_catch m h).
Proof.
  intros Hm Hh s Hs. unfold try_catch. specialize (Hm s Hs).
  destruct (m s) as [[a|e] s1]; simpl in *; [exact Hm | apply Hh, Hm].
Qed.

Lemma preserves_modify Inv (g : State -> State) :
  (forall s, Inv s -> Inv (g s)) -> preserves Inv (modify g).
Proof. intros Hg s Hs. apply Hg, Hs. Qed.

Lemma preserves_pure {A} Inv (m : M A) : (forall s, snd (m s) = s) -> preserves Inv m.
Proof. intros Hm s Hs. rewrite Hm. exact Hs. Qed.

Section RunPreserves.
Variable Inv : State -> Prop.
Hypothesis Inv_fetch : forall net path, preserves Inv (fetchFromApi net path).
Hypothesis Inv_display : forall k r, preserves Inv (display k r).
Hypothesis Inv_console : forall g s, Inv s -> Inv (set_console g s).
Hypothesis Inv_calls : forall s, Inv s -> Inv (set_apiCallCount (fun n => n + 1) s).
Hypothesis Inv_size : forall (len : nat) s, Inv s -> Inv (set_totalDataSize (fun n => n + Z.of_nat len) s).
Hypothesis Inv_cursor : forall s, Inv s -> Inv (set_lastCharacterId (fun n => n + 1) s).
Hypothesis Inv_errors : forall s, Inv s -> Inv (set_errorCount (fun n => n + 1) s).

Lemma logDebug_preserves args : preserves Inv (logDebug args).
Proof.
  intros s Hs. rewrite logDebug_eq. simpl. unfold logged.
  destruct (isDebugMode s); [apply Inv_console, Hs | exact Hs].
Qed.

Lemma handleData_preserves net k : preserves Inv (handleData net k).
Proof.
  unfold handleData, addDataSize, bind, deref.
  apply preserves_mbind; [apply preserves_pure; reflexivity|]. intros path.
  apply preserves_mbind; [apply Inv_fetch|]. intros r.
  apply preserves_mbind; [|intros _; apply Inv_display].
  apply preserves_mbind; [apply preserves_pure; reflexivity|]. intros data.
  apply preserves_modify. intros s. apply Inv_size.
Qed.

Lemma printStats_preserves : preserves Inv printStats.
Proof.
  unfold printStats, bind.
  repeat match goal with
         | |- preserves _ (_ ≫= _) =>
             apply preserves_mbind;
             [first [apply logDebug_preserves | apply preserves_pure; reflexivity] | intros ?]
         end.
  apply logDebug_preserves.
Qed.

Lemma run_preserves net : preserves Inv (fetchAndDisplayStarWarsData net).
Proof.
  unfold fetchAndDisplayStarWarsData. apply preserves_try_catch.
  - unfold tryBlock, handleCharacterData, handleStarshipsData, handlePlanetsData,
      handleFilmsData.
    apply preserves_mbind; [apply logDebug_preserves|]. intros _.
    apply preserves_mbind; [apply preserves_modify, Inv_calls|]. intros _.
    do 4 (apply preserves_mbind; [apply handleData_preserves|]; intros _).
    apply preserves_mbind; [|intros _; apply printStats_preserves].
    unfold vehicleStep, bind. apply preserves_mbind; [apply preserves_pure; reflexivity|].
    intros id. destruct (id <=? MAX_VEHICLE_CHARACTER_ID).
    + apply preserves_mbind; [apply handleData_preserves|]. intros _.
      apply preserves_modify, Inv_cursor.
    + apply preserves_pure. reflexivity.
  - intros e. unfold catchBlock, console_error, incrementErrorCount.
    apply preserves_mbind; [apply preserves_modify, Inv_console|]. intros _.
    apply preserves_modify, Inv_errors.
Qed.

Lemma exec_preserves net ops : forall s, Inv s -> Inv (exec net ops s).
Proof.
  induction ops as [|op ops IH]; intros s Hs; simpl; [exact Hs|].
  apply IH. destruct op as [path|]; simpl; [apply Inv_fetch | apply run_preserves]; exact Hs.
Qed.

End RunPreserves.


Lemma grown_same s0 s s' :
  errorCount s' = errorCount s -> totalDataSize s' = totalDataSize s ->
  apiCache s' = apiCache s -> List.length (heap s') = List.length (heap s) ->
  requests s' = requests s -> isDebugMode s' = isDebugMode s ->
  grown s0 s -> grown s0 s'.
Proof.
  intros He Hd Hc Hh Hr Hm (G1 & G2 & G3 & G4 & G5 & G6).
  unfold grown. rewrite He, Hd, Hc, Hh, Hr, Hm. repeat split; assumption.
Qed.

Lemma fetchFromApi_grown s0 net path : preserves (grown s0) (fetchFromApi net path).
Proof.
  intros s (G1 & G2 & G3 & G4 & G5 & G6).
  destruct (fetchFromApi_cases net path s) as [[r Hhit] | [[Hmiss [e Hf]] | [Hmiss [v Hv]]]].
  - rewrite (fetchFromApi_hit net path s r Hhit). simpl.
    destruct (logged_fields [AStr "Using cached data for"; AStr path]
                (set_trace (fun t => t ++ [EvFetch path]) s))
      as (Hc & Hh & Hm & He & _ & _ & Hd & Hr & _).
    apply (grown_same s0 s); try assumption; [rewrite Hh; reflexivity|].
    repeat split; assumption.
  - rewrite (fetchFromApi_miss_fails net path s e Hmiss Hf). simpl.
    repeat split; simpl; try assumption; try lia.
    etransitivity; [exact G5 | apply prefix_app_r; reflexivity].
  - rewrite (fetchFromApi_miss_succeeds net path s v Hmiss Hv). simpl.
    destruct (stored_fields path v s) as (Hc & Hh & Hm & He & _ & _ & Hd & Hr & _).
    unfold grown. rewrite Hc, Hh, Hm, He, Hd, Hr. repeat split; try assumption.
    + intros p Hp. destruct (decide (path = p)) as [->|Hne].
      * rewrite lookup_insert_eq. eauto.
      * rewrite lookup_insert_ne by exact Hne. apply G3, Hp.
    + rewrite length_app. simpl. lia.
    + etransitivity; [exact G5 | apply prefix_app_r; reflexivity].
Qed.

Lemma display_heap_length k r s :
  List.length (heap (snd (display k r s))) = List.length (heap s).
Proof.
  destruct (decide (k = Films)) as [->|Hk].
  - simpl. destruct (printFilmsData_heap r s) as [-> | (props & films & sorted & _ & _ & _ & ->)];
      [reflexivity | apply length_insert].
  - rewrite (display_keeps_heap k r Hk). reflexivity.
Qed.

Lemma display_grown s0 k r : preserves (grown s0) (display k r).
Proof.
  intros s Hs. apply (grown_same s0 s); try exact Hs.
  - apply display_keeps_errorCount.
  - apply display_keeps_totalDataSize.
  - apply display_keeps_apiCache.
  - apply display_heap_length.
  - apply display_keeps_requests.
  - apply display_keeps_isDebugMode.
Qed.

(** Nothing is ever taken back: over any sequence of calls the error
    counter and the byte counter do not decrease, no path leaves the cache,
    no stored value and no request is dropped, and the debugging flag stays
    as it is. *)
Theorem state_only_grows net ops s :
  let s' := exec net ops s in
  errorCount s <= errorCount s' /\
  totalDataSize s <= totalDataSize s' /\
  (forall path, is_Some (apiCache s !! path) -> is_Some (apiCache s' !! path)) /\
  (List.length (heap s) <= List.length (heap s'))%nat /\
  requests s `prefix_of` requests s' /\
  isDebugMode s' = isDebugMode s.
Proof.
  apply (exec_preserves (grown s)).
  - apply fetchFromApi_grown.
  - apply display_grown.
  - intros g s1 Hs. apply (grown_same s s1); try exact Hs; reflexivity.
  - intros s1 Hs. apply (grown_same s s1); try exact Hs; reflexivity.
  - intros len s1 (G1 & G2 & G3 & G4 & G5 & G6).
    repeat split; simpl; try assumption; lia.
  - intros s1 Hs. apply (grown_same s s1); try exact Hs; reflexivity.
  - intros s1 (G1 & G2 & G3 & G4 & G5 & G6).
    repeat split; simpl; try assumption; lia.
  - repeat split; try reflexivity; auto.
Qed.

Lemma cache_sound_same s s' :
  apiCache s' = apiCache s -> requests s' = requests s ->
  (forall r, is_Some (heap s !! r) -> is_Some (heap s' !! r)) ->
  cache_sound s -> cache_sound s'.
Proof.
  intros Hc Hr Hh Hs path r Hentry. rewrite Hc in Hentry.
  destruct (Hs path r Hentry) as [Hin [v Hv]]. rewrite Hr. split; [exact Hin|].
  apply Hh. eauto.
Qed.

Lemma fetchFromApi_sound net path : preserves cache_sound (fetchFromApi net path).
Proof.
  intros s Hs.
  destruct (fetchFromApi_cases net path s) as [[r Hhit] | [[Hmiss [e Hf]] | [Hmiss [v Hv]]]].
  - rewrite (fetchFromApi_hit net path s r Hhit). simpl.
    destruct (logged_fields [AStr "Using cached data for"; AStr path]
                (set_trace (fun t => t ++ [EvFetch path]) s))
      as (Hc & Hh & _ & _ & _ & _ & _ & Hr & _).
    apply (cache_sound_same s); try assumption. intros r0. rewrite Hh. auto.
  - rewrite (fetchFromApi_miss_fails net path s e Hmiss Hf). simpl.
    intros p r Hentry. destruct (Hs p r Hentry) as [Hin Hv].
    split; [simpl; apply in_or_app; left; exact Hin | exact Hv].
  - rewrite (fetchFromApi_miss_succeeds net path s v Hmiss Hv). simpl.
    destruct (stored_fields path v s) as (Hc & Hh & _ & _ & _ & _ & _ & Hr & _).
    intros p r. rewrite Hc, Hh, Hr. destruct (decide (path = p)) as [->|Hne].
    + rewrite lookup_insert_eq. intros Heq. injection Heq as <-.
      split; [apply in_or_app; right; left; reflexivity|].
      exists v. apply list_lookup_middle. reflexivity.
    + rewrite lookup_insert_ne by exact Hne. intros Hentry.
      destruct (Hs p r Hentry) as [Hin [v0 Hv0]].
      split; [apply in_or_app; left; exact Hin|].
      exists v0. apply lookup_app_l_Some, Hv0.
Qed.

Lemma display_sound k r : preserves cache_sound (display k r).
Proof.
  intros s Hs. apply (cache_sound_same s); try exact Hs.
  - apply display_keeps_apiCache.
  - apply display_keeps_requests.
  - intros r0 Hr0. apply lookup_lt_is_Some. rewrite display_heap_length.
    apply lookup_lt_is_Some, Hr0.
Qed.

(** In a process that starts with an empty cache, every cached path has
    been requested from the network, and the cache holds a stored value
    for it: no entry is made up and none points nowhere. *)
Theorem cached_paths_were_fetched net debug ops :
  let s := exec net ops (init_state debug) in
  forall path r, apiCache s !! path = Some r ->
                 In path (requests s) /\ exists v, heap s !! r = Some v.
Proof.
  apply (exec_preserves cache_sound).
  - apply fetchFromApi_sound.
  - apply display_sound.
  - intros g s Hs. exact Hs.
  - intros s Hs. exact Hs.
  - intros len s Hs. exact Hs.
  - intros s Hs. exact Hs.
  - intros s Hs. exact Hs.
  - intros path r Hentry. simpl in Hentry. rewrite lookup_empty in Hentry. discriminate.
Qed.


(** ** The display functions on payloads of the wrong shape *)

(** A payload that is [null] makes every display function throw a
    [TypeError]: the displays of the planets and of the vehicle have
    written their heading by then, the others nothing; the stored values
    are untouched. *)
Theorem display_of_null_throws k r s :
  heap s !! r = Some VNull ->
  fst (display k r s) = Throw TypeError /\
  console (snd (display k r s)) = console s ++ early_heading k /\
  heap (snd (display k r s)) = heap s.
Proof.
  intros Hr.
  destruct k; simpl;
    unfold printCharacterData, printStarshipData, printLargePlanets, printFilmsData,
      printVehicleData, log_property, console_log, bind, record, deref;
    rewrite ?run_modify, run_gets;
    repeat match goal with
           | |- context [heap (?f ?g ?x)] => change (heap (f g x)) with (heap x)
           end;
    rewrite ?Hr; simpl; rewrite ?app_nil_r; auto.
Qed.


Lemma set_console_nil s : set_console (fun c => c ++ []) s = s.
Proof. destruct s. unfold set_console. simpl. rewrite app_nil_r. reflexivity. Qed.

Lemma set_console_app l1 l2 s :
  set_console (fun c => c ++ l2) (set_console (fun c => c ++ l1) s) =
  set_console (fun c => c ++ (l1 ++ l2)) s.
Proof. unfold set_console. simpl. rewrite app_assoc. reflexivity. Qed.

Lemma Get_defined v key : v <> VNull -> v <> VUndef -> Get v key = Ok (field v key).
Proof. intros Hn Hu. unfold field. destruct v; try congruence; reflexivity. Qed.

Lemma log_property_eq label data key s :
  log_property label data key s =
    match Get data key with
    | Ok v => (Ok tt, set_console (fun c => c ++ [Log [AStr label; AVal v]]) s)
    | Throw e => (Throw e, s)
    end.
Proof. unfold log_property, bind. rewrite run_lift. destruct (Get data key); reflexivity. Qed.

(** On a payload that is neither [null] nor [undefined] the display of
    the vehicle never throws; it writes its eight lines, a property that
    the payload lacks shown as [undefined], and changes nothing else. *)
Theorem printVehicleData_total r s v :
  heap s !! r = Some v -> v <> VNull -> v <> VUndef ->
  printVehicleData r s =
    (Ok tt, set_console (fun c => c ++ vehicle_lines v)
              (set_trace (fun t => t ++ [EvDisplay Vehicle]) s)) /\
  (forall props key, v = VObj props -> has_own_property props key = false ->
                     field v key = VUndef).
Proof.
  intros Hr Hn Hu. split.
  - unfold printVehicleData, console_log, bind, record, deref.
    rewrite run_modify, run_gets.
    change (heap (set_trace _ s)) with (heap s). rewrite Hr. simpl default.
    repeat (rewrite run_modify
            || rewrite run_lift, (Get_defined v _ Hn Hu)
            || rewrite run_mbind, log_property_eq, (Get_defined v _ Hn Hu)).
    rewrite log_property_eq, (Get_defined v _ Hn Hu).
    rewrite !set_console_app. reflexivity.
  - intros props key -> Hkey. clear Hr Hn Hu. unfold field. simpl.
    induction props as [|[k x] props IH]; [reflexivity|].
    simpl in *. apply orb_false_iff in Hkey as [Hk Hrest].
    rewrite Hk. apply IH, Hrest.
Qed.

(** *** What the displays write *)

Lemma run_console_log {B} args (f : unit -> M B) s :
  (console_log args ≫= f) s = f tt (set_console (fun c => c ++ [Log args]) s).
Proof. reflexivity. Qed.

Lemma field_ok v key x : Get v key = Ok x -> field v key = x.
Proof. intros Hget. unfold field. rewrite Hget. reflexivity. Qed.

Lemma Get_of_defined v key : defined v -> Get v key = Ok (field v key).
Proof. intros [Hn Hu]. apply Get_defined; assumption. Qed.

Lemma emits_ret : emits [] (mret tt).
Proof.
  intros s. exists []. split; [symmetry; apply set_console_nil|]. split; [reflexivity|].
  reflexivity.
Qed.

Lemma emits_log args : emits [Log args] (console_log args).
Proof. intros s. exists [Log args]. split; [reflexivity|]. split; reflexivity. Qed.

Lemma emits_lift {A} (x : Res A) (f : A -> M unit) expected :
  (forall a, x = Ok a -> emits expected (f a)) -> emits expected (lift x ≫= f).
Proof.
  intros Hf s. rewrite run_lift. destruct x as [a|e].
  - apply Hf. reflexivity.
  - exists []. split; [symmetry; apply set_console_nil|]. split; [apply prefix_nil|].
    discriminate.
Qed.

Lemma emits_seq ls1 ls2 (m : M unit) (f : unit -> M unit) :
  emits ls1 m -> emits ls2 (f tt) -> emits (ls1 ++ ls2) (m ≫= f).
Proof.
  intros Hm Hf s. rewrite run_mbind. destruct (Hm s) as (l1 & E1 & P1 & C1).
  destruct (m s) as [[[]|err] s1]; simpl in E1, C1; subst s1.
  - rewrite (C1 eq_refl).
    destruct (Hf (set_console (fun c => c ++ ls1) s)) as (l2 & E2 & P2 & C2).
    exists (ls1 ++ l2). split; [rewrite E2; apply set_console_app|].
    split; [apply prefix_app, P2|].
    intros Hdone. rewrite (C2 Hdone). reflexivity.
  - exists l1. split; [reflexivity|]. split; [apply prefix_app_r, P1 | discriminate].
Qed.

Lemma emits_cons line rest (m : M unit) (f : unit -> M unit) :
  emits [line] m -> emits rest (f tt) -> emits (line :: rest) (m ≫= f).
Proof. apply (emits_seq [line] rest). Qed.

Lemma emits_forEach {A} (item : nat -> A -> list Line) (body : nat -> A -> M unit) :
  (forall i x, emits (item i x) (body i x)) ->
  forall l start, emits (listing item start l) (forEach body start l).
Proof.
  intros Hbody l. induction l as [|x l IH]; intros start; simpl.
  - apply emits_ret.
  - apply emits_seq; [apply Hbody | apply IH].
Qed.

Lemma emits_log_property label data key :
  emits [Log [AStr label; AVal (field data key)]] (log_property label data key).
Proof.
  unfold log_property, bind. apply emits_lift. intros v Hv.
  rewrite (field_ok _ _ _ Hv). apply emits_log.
Qed.

(** What a computation that completes leaves on the console. *)
Lemma emits_console expected (m : M unit) s :
  emits expected m ->
  exists lines,
    console (snd (m s)) = console s ++ lines /\
    lines `prefix_of` expected /\
    (fst (m s) = Ok tt -> lines = expected).
Proof.
  intros Hm. destruct (Hm s) as (lines & E & P & C). exists lines.
  split; [rewrite E; reflexivity|]. split; assumption.
Qed.

(** *** The starships *)

Lemma printStarship_emits index starship :
  emits (starship_lines index starship) (printStarship index starship).
Proof.
  unfold printStarship, starship_lines, starship_heading, bind.
  apply emits_cons; [apply emits_log|]. cbv beta.
  apply emits_cons; [apply emits_log_property|]. cbv beta.
  apply emits_cons; [apply emits_log_property|]. cbv beta.
  apply emits_cons; [apply emits_log_property|]. cbv beta.
  apply emits_lift. intros cost Hcost. rewrite (field_ok _ _ _ Hcost).
  apply emits_cons.
  { unfold cost_text. destruct (is_not_unknown cost).
    - apply emits_lift. intros t Ht. unfold text. rewrite Ht. apply emits_log.
    - apply emits_log. }
  cbv beta.
  apply emits_cons; [apply emits_log_property|]. cbv beta.
  apply emits_cons; [apply emits_log_property|]. cbv beta.
  apply emits_lift. intros pilots Hpilots. unfold pilots_line. rewrite Hpilots.
  destruct pilots as [len|]; [apply emits_log | apply emits_ret].
Qed.

Lemma completes_ret : completes (mret tt).
Proof. intros s. reflexivity. Qed.

Lemma completes_log args : completes (console_log args).
Proof. intros s. reflexivity. Qed.

Lemma completes_lift {A} (x : Res A) (f : A -> M unit) a :
  x = Ok a -> completes (f a) -> completes (lift x ≫= f).
Proof. intros -> Hf s. rewrite run_lift. apply Hf. Qed.

Lemma completes_seq (m : M unit) (f : unit -> M unit) :
  completes m -> completes (f tt) -> completes (m ≫= f).
Proof.
  intros Hm Hf s. rewrite run_mbind. pose proof (Hm s) as Hdone.
  destruct (m s) as [[[]|err] s1]; [apply Hf | discriminate].
Qed.

Lemma completes_log_property label data key :
  defined data -> completes (log_property label data key).
Proof.
  intros Hd. unfold log_property, bind.
  eapply completes_lift; [apply Get_of_defined, Hd | apply completes_log].
Qed.

Lemma completes_forEach {A} (body : nat -> A -> M unit) (l : list A) :
  Forall (fun x => forall i, completes (body i x)) l ->
  forall start, completes (forEach body start l).
Proof.
  induction 1 as [|x l Hx _ IH]; intros start; simpl; [apply completes_ret|].
  apply completes_seq; [apply Hx | apply IH].
Qed.

Lemma printStarship_completes index starship :
  shippable starship -> completes (printStarship index starship).
Proof.
  intros (Hd & Hcost & pilots & Hpilots). unfold printStarship, bind.
  apply completes_seq; [apply completes_log|]. cbv beta.
  apply completes_seq; [apply completes_log_property, Hd|]. cbv beta.
  apply completes_seq; [apply completes_log_property, Hd|]. cbv beta.
  apply completes_seq; [apply completes_log_property, Hd|]. cbv beta.
  eapply completes_lift; [apply Get_of_defined, Hd|].
  apply completes_seq.
  { destruct (is_not_unknown (field starship "cost_in_credits")) eqn:Hknown.
    - destruct (Hcost eq_refl) as [t Ht].
      eapply completes_lift; [exact Ht | apply completes_log].
    - apply completes_log. }
  cbv beta.
  apply completes_seq; [apply completes_log_property, Hd|]. cbv beta.
  apply completes_seq; [apply completes_log_property, Hd|]. cbv beta.
  eapply completes_lift; [exact Hpilots|].
  destruct pilots; [apply completes_log | apply completes_ret].
Qed.

(** What [printStarshipData] does with a payload that has a [results]
    array. *)
Lemma printStarshipData_eq r s props starships :
  heap s !! r = Some (VObj props) ->
  own_property props "results" = VArr starships ->
  printStarshipData r s =
    forEach printStarship 0 (firstn MAX_STARSHIPS_DISPLAYED starships)
      (set_console
         (fun c => c ++ [Log [AStr (nl +:+ "Total Starships:");
                              AVal (own_property props "count")]])
         (set_trace (fun t => t ++ [EvDisplay Starships]) s)).
Proof.
  intros Hr Hres. unfold printStarshipData, bind, record, deref.
  rewrite run_modify, run_gets, run_mbind, log_property_eq.
  change (heap (set_trace _ s)) with (heap s). rewrite Hr. simpl default. simpl Get.
  cbv beta iota. rewrite run_lift, Hres. reflexivity.
Qed.

(** The display of the starships shows the first
    [MAX_STARSHIPS_DISPLAYED] starships of the payload, in the order of
    the payload and numbered from 1: after the line of the total it writes
    the lines of these starships, all of them when it completes, and it
    completes when none of the starships shown makes its display throw. *)
Theorem first_three_starships_shown r s props starships :
  heap s !! r = Some (VObj props) ->
  own_property props "results" = VArr starships ->
  let shown := firstn MAX_STARSHIPS_DISPLAYED starships in
  exists lines,
    console (snd (printStarshipData r s)) =
      console s ++
      Log [AStr (nl +:+ "Total Starships:"); AVal (own_property props "count")] :: lines /\
    lines `prefix_of` listing starship_lines 0 shown /\
    (fst (printStarshipData r s) = Ok tt -> lines = listing starship_lines 0 shown) /\
    (Forall shippable shown -> fst (printStarshipData r s) = Ok tt).
Proof.
  intros Hr Hres shown. rewrite (printStarshipData_eq r s props starships Hr Hres).
  fold shown.
  match goal with
  | |- context [forEach printStarship 0 shown ?x] =>
      destruct (emits_console (listing starship_lines 0 shown)
                  (forEach printStarship 0 shown) x
                  (emits_forEach starship_lines printStarship printStarship_emits shown 0))
        as (lines & Hc & Hp & Hdone)
  end.
  exists lines. split; [rewrite Hc; simpl; rewrite <- app_assoc; reflexivity|].
  split; [exact Hp|]. split; [exact Hdone|].
  intros Hall. apply completes_forEach.
  eapply Forall_impl; [exact Hall|]. intros x Hx i. apply printStarship_completes, Hx.
Qed.


(** *** The films *)






(** ** Displaying the films again *)

Lemma narrates_ret {A} (a : A) : narrates (mret a : M A).
Proof. exists (Ok a), []. intros s. rewrite set_console_nil. reflexivity. Qed.

Lemma narrates_log args : narrates (console_log args).
Proof. exists (Ok tt), [Log args]. intros s. reflexivity. Qed.

Lemma narrates_mbind {A B} (m : M A) (f : A -> M B) :
  narrates m -> (forall a, narrates (f a)) -> narrates (m ≫= f).
Proof.
  intros (res & l1 & Hm) Hf. destruct res as [a|e].
  - destruct (Hf a) as (res2 & l2 & Hfa). exists res2, (l1 ++ l2). intros s.
    rewrite run_mbind, Hm, Hfa, set_console_app. reflexivity.
  - exists (Throw e), l1. intros s. rewrite run_mbind, Hm. reflexivity.
Qed.

Lemma narrates_lift {A B} (x : Res A) (f : A -> M B) :
  (forall a, narrates (f a)) -> narrates (lift x ≫= f).
Proof.
  intros Hf. destruct x as [a|e].
  - destruct (Hf a) as (res & l & Hfa). exists res, l. intros s. rewrite run_lift. apply Hfa.
  - exists (Throw e), []. intros s. rewrite run_lift, set_console_nil. reflexivity.
Qed.

Lemma printFilm_narrates index film : narrates (printFilm index film).
Proof.
  unfold printFilm, bind.
  repeat first [ apply narrates_lift; intros ?
               | apply narrates_mbind; [apply narrates_log | intros ?]
               | apply narrates_log ].
Qed.

Lemma forEach_narrates {A} (body : nat -> A -> M unit) l :
  (forall i x, narrates (body i x)) -> forall start, narrates (forEach body start l).
Proof.
  intros Hbody. induction l as [|x l IH]; intros start; simpl.
  - apply narrates_ret.
  - apply narrates_mbind; [apply Hbody | intros _; apply IH].
Qed.

Lemma sort_by_sorted_id {A} (key : A -> Z) l :
  StronglySorted (key_le key) l -> sort_by key l = l.
Proof.
  induction 1 as [|x l Hl IH Hx]; [reflexivity|].
  simpl. rewrite IH. destruct Hx as [|y l Hy _]; [reflexivity|].
  simpl. unfold key_le in Hy. replace (key y <? key x) with false; [reflexivity|].
  symmetry. apply Z.ltb_ge. exact Hy.
Qed.

Lemma own_property_set props key v : own_property (set_property props key v) key = v.
Proof.
  induction props as [|[k x] props IH]; simpl.
  - rewrite String.eqb_refl. reflexivity.
  - destruct (String.eqb k key) eqn:Hk; simpl; rewrite Hk; [reflexivity | exact IH].
Qed.

Lemma set_property_twice props key v :
  set_property (set_property props key v) key v = set_property props key v.
Proof.
  induction props as [|[k x] props IH]; simpl.
  - rewrite String.eqb_refl. reflexivity.
  - destruct (String.eqb k key) eqn:Hk; simpl; rewrite Hk; [reflexivity|].
    rewrite IH. reflexivity.
Qed.

(** Once the films have been displayed, displaying them again (as every
    later run does, with the cached payload) ends the same way, writes the
    same lines and leaves the stored values as they are: the sort in place
    happens once. *)
Theorem films_display_repeats r s props films :
  heap s !! r = Some (VObj props) ->
  own_property props "results" = VArr films ->
  Forall dated films ->
  let first := printFilmsData r s in
  let second := printFilmsData r (snd first) in
  fst second = fst first /\
  heap (snd second) = heap (snd first) /\
  drop (List.length (console (snd first))) (console (snd second)) =
  drop (List.length (console s)) (console (snd first)).
Proof.
  intros Hr Hres Hall first second.
  set (sorted := sort_by release_key films).
  set (props' := set_property props "results" (VArr sorted)).
  destruct (forEach_narrates printFilm sorted printFilm_narrates 0) as (res & lines & Hshow).
  assert (Hfirst : first = (res, set_console (fun c => c ++ lines)
                                   (films_sorted r props sorted s))).
  { unfold first.
    rewrite (printFilmsData_sorted r s props films sorted Hr Hres (Array_sort_dated films Hall)).
    apply Hshow. }
  assert (Hheap1 : heap (snd first) = <[r := VObj props']> (heap s))
    by (rewrite Hfirst; reflexivity).
  assert (Hr1 : heap (snd first) !! r = Some (VObj props')).
  { rewrite Hheap1. apply list_lookup_insert_eq. eapply lookup_lt_Some, Hr. }
  assert (Hsorted : Forall dated sorted)
    by (unfold sorted; rewrite sort_by_perm; exact Hall).
  assert (Hagain : Array_sort compareReleaseDates sorted = Ok sorted).
  { rewrite (Array_sort_dated sorted Hsorted). f_equal.
    apply sort_by_sorted_id, sort_by_sorted. }
  assert (Hsecond : second = (res, set_console (fun c => c ++ lines)
                                     (films_sorted r props' sorted (snd first)))).
  { unfold second.
    rewrite (printFilmsData_sorted r (snd first) props' sorted sorted Hr1
               (own_property_set props "results" (VArr sorted)) Hagain).
    apply Hshow. }
  rewrite Hsecond, Hfirst. simpl. split; [reflexivity|]. split.
  - unfold props'. rewrite set_property_twice. apply list_insert_insert_eq.
  - match goal with
    | |- drop _ ((((?a ++ ?h) ++ ?l) ++ _) ++ _) = _ =>
        rewrite <- (app_assoc ((a ++ h) ++ l) h l), drop_app_length,
          <- (app_assoc a h l), drop_app_length
    end.
    reflexivity.
Qed.


(** ** The refactored fetcher *)

(** The fetcher of the refactored script does what the fetcher of the
    script does: its promise is settled, with the value that [fetchFromApi]
    returns or the error that it throws, and it leaves the same state. *)
Theorem refactored_fetcher_agrees net path s :
  Refactored.fetchFromApi net path s =
    (Ok (settled (fst (fetchFromApi net path s))), snd (fetchFromApi net path s)).
Proof.
  unfold Refactored.fetchFromApi, bind, record. rewrite run_modify, run_gets.
  change (isCached (set_trace _ s) path) with (isCached s path).
  destruct (fetchFromApi_cases net path s) as [[r Hhit] | [[Hmiss [e Hf]] | [Hmiss [v Hv]]]].
  - rewrite (fetchFromApi_hit net path s r Hhit).
    replace (isCached s path) with true by (symmetry; apply isCached_true; eauto).
    unfold Refactored.getCachedData. rewrite !run_mbind, logDebug_eq. cbv beta iota.
    unfold gets. cbv beta iota.
    destruct (logged_fields [AStr "Using cached data for"; AStr path]
                (set_trace (fun t => t ++ [EvFetch path]) s)) as (-> & _).
    apply cache_hit_Some in Hhit as (Hentry & _).
    change (apiCache (set_trace _ s)) with (apiCache s). rewrite Hentry. reflexivity.
  - rewrite (fetchFromApi_miss_fails net path s e Hmiss Hf), (isCached_false s path Hmiss).
    unfold Refactored.createRequest, bind, incrementErrorCount.
    rewrite run_gets, run_modify.
    change (List.length (requests (set_trace _ s))) with (List.length (requests s)).
    destruct Hf as [m Hnet | Hnet | c ch Hnet Hc | c ch Hnet Hc Hparse]; rewrite Hnet.
    + reflexivity.
    + reflexivity.
    + unfold Refactored.handleResponseStatus, incrementErrorCount.
      apply Z.leb_le in Hc. rewrite Hc. reflexivity.
    + unfold Refactored.handleResponseStatus, Refactored.parseResponseData,
        incrementErrorCount.
      apply Z.leb_gt in Hc. rewrite Hc. rewrite run_ret. cbn [fst snd].
      rewrite Hparse. reflexivity.
  - rewrite (fetchFromApi_miss_succeeds net path s v Hmiss Hv), (isCached_false s path Hmiss).
    destruct Hv as (c & ch & Hnet & Hc & Hparse).
    unfold Refactored.createRequest, bind. rewrite run_gets, run_modify.
    change (List.length (requests (set_trace _ s))) with (List.length (requests s)).
    rewrite Hnet. unfold Refactored.handleResponseStatus.
    apply Z.leb_gt in Hc. rewrite Hc. rewrite run_ret. cbn [fst snd].
    unfold Refactored.parseResponseData, Refactored.cacheData, bind. rewrite Hparse.
    cbn [fst snd].
    rewrite run_mbind. unfold alloc. cbv beta iota.
    rewrite run_mbind, run_modify, run_logDebug, run_gets, logDebug_eq.
    reflexivity.
Qed.


(** ** The command line *)

Lemma includes_elem args x : CommandLine.includes args x = true <-> x ∈ args.
Proof.
  unfold CommandLine.includes. rewrite existsb_exists. split.
  - intros (a & Hin & Heq). apply String.eqb_eq in Heq. subst a.
    apply list_elem_of_In, Hin.
  - intros Hin. exists x. split; [apply list_elem_of_In, Hin | apply String.eqb_refl].
Qed.

Lemma indexOf_from_first pre x rest i :
  x ∉ pre ->
  CommandLine.indexOf_from (pre ++ x :: rest) x i = i + Z.of_nat (List.length pre).
Proof.
  revert i. induction pre as [|a pre IH]; intros i Hpre; simpl.
  - rewrite String.eqb_refl. lia.
  - apply not_elem_of_cons in Hpre as [Hne Hpre].
    destruct (String.eqb a x) eqn:Heq.
    + apply String.eqb_eq in Heq. congruence.
    + rewrite IH by exact Hpre. lia.
Qed.

(** COMMAND LINE, the argument of [--timeout]: when the first [--timeout]
    is followed by an argument, the first script assigns what [parseInt]
    reads in it, a [NaN] or a number that is not positive included; the
    variant with the logger assigns it when it is a number greater than
    zero and keeps the timeout it had otherwise. *)
Theorem timeout_argument_read pre a rest st :
  "--timeout" ∉ pre ->
  let args := pre ++ "--timeout" :: a :: rest in
  CommandLine.requestTimeout (CommandLine.processArgs_original args st) =
    parseInt_string a /\
  CommandLine.requestTimeout (CommandLine.processArgs_logger args st) =
    (if CommandLine.is_positive_number (parseInt_string a)
     then parseInt_string a else CommandLine.requestTimeout st).
Proof.
  intros Hpre args.
  assert (Hin : CommandLine.includes args "--timeout" = true).
  { apply includes_elem. unfold args. rewrite elem_of_app, elem_of_cons. auto. }
  assert (Hidx : CommandLine.indexOf args "--timeout" = Z.of_nat (List.length pre)).
  { unfold CommandLine.indexOf, args. rewrite indexOf_from_first by exact Hpre. lia. }
  assert (Hlen : (Z.of_nat (List.length pre) <? Z.of_nat (List.length args) - 1) = true).
  { apply Z.ltb_lt. unfold args. rewrite length_app. simpl. lia. }
  assert (Harg : CommandLine.parseInt_at args (Z.of_nat (List.length pre) + 1) =
                 parseInt_string a).
  { unfold CommandLine.parseInt_at.
    replace (Z.of_nat (List.length pre) + 1 <? 0) with false by (symmetry; apply Z.ltb_ge; lia).
    replace (Z.to_nat (Z.of_nat (List.length pre) + 1)) with (List.length pre + 1)%nat by lia.
    unfold args. rewrite lookup_app_r by lia.
    replace (List.length pre + 1 - List.length pre)%nat with 1%nat by lia. reflexivity. }
  unfold CommandLine.processArgs_original, CommandLine.processArgs_logger.
  rewrite Hin, Hidx, Hlen, Harg. split.
  - destruct (CommandLine.includes args "--no-debug"); reflexivity.
  - destruct (CommandLine.is_positive_number (parseInt_string a)),
      (CommandLine.includes args "--no-debug"); reflexivity.
Qed.

(** COMMAND LINE, the guard of the variant with the logger: whatever the
    arguments, a timeout that is a number greater than zero stays one; the
    variant ends with the timeout of the first script when that is a number
    greater than zero, and with the timeout it had otherwise. *)
Theorem guarded_timeout_positive args st :
  CommandLine.is_positive_number (CommandLine.requestTimeout st) = true ->
  let original := CommandLine.processArgs_original args st in
  let guarded := CommandLine.processArgs_logger args st in
  CommandLine.is_positive_number (CommandLine.requestTimeout guarded) = true /\
  CommandLine.requestTimeout guarded =
    (if CommandLine.is_positive_number (CommandLine.requestTimeout original)
     then CommandLine.requestTimeout original else CommandLine.requestTimeout st).
Proof.
  intros Hpos original guarded.
  unfold original, guarded, CommandLine.processArgs_original, CommandLine.processArgs_logger.
  destruct (CommandLine.includes args "--timeout");
    [destruct (CommandLine.indexOf args "--timeout" <? Z.of_nat (List.length args) - 1);
     [destruct (CommandLine.is_positive_number
                  (CommandLine.parseInt_at args (CommandLine.indexOf args "--timeout" + 1)))
        eqn:Harg|]|];
    destruct (CommandLine.includes args "--no-debug"); simpl;
    rewrite ?Harg, ?Hpos; auto.
Qed.

(** COMMAND LINE, the debug flag: from the settings the scripts start with,
    the three variants end with the same debug flag, off exactly when
    [--no-debug] is among the arguments; the variant with the logger leaves
    the flag of the logger equal to it.  The first script cannot turn the
    flag on again, the other two can. *)
Theorem debug_flag_agrees args st :
  let original := CommandLine.processArgs_original args st in
  let guarded := CommandLine.processArgs_logger args st in
  let refactored := CommandLine.processCommandLineArgs args st in
  CommandLine.isDebugMode guarded = CommandLine.isDebugMode refactored /\
  CommandLine.debugEnabled guarded = CommandLine.isDebugMode guarded /\
  (CommandLine.isDebugMode guarded = false <-> "--no-debug" ∈ args) /\
  CommandLine.isDebugMode original =
    CommandLine.isDebugMode st && CommandLine.isDebugMode guarded /\
  CommandLine.requestTimeout refactored = CommandLine.requestTimeout st.
Proof.
  intros original guarded refactored.
  assert (Hflag : CommandLine.isDebugMode guarded = negb (CommandLine.includes args "--no-debug") /\
                  CommandLine.debugEnabled guarded = negb (CommandLine.includes args "--no-debug") /\
                  CommandLine.isDebugMode original =
                    CommandLine.isDebugMode st && negb (CommandLine.includes args "--no-debug")).
  { unfold original, guarded, CommandLine.processArgs_original, CommandLine.processArgs_logger.
    destruct (CommandLine.includes args "--timeout");
      [destruct (CommandLine.indexOf args "--timeout" <? Z.of_nat (List.length args) - 1);
       [destruct (CommandLine.is_positive_number
                    (CommandLine.parseInt_at args (CommandLine.indexOf args "--timeout" + 1)))|]|];
      destruct (CommandLine.includes args "--no-debug"), (CommandLine.isDebugMode st) eqn:Hst;
      simpl; rewrite ?Hst; auto. }
  destruct Hflag as (Hg & Hl & Ho). rewrite Hg, Hl, Ho. repeat split; try reflexivity.
  - intros Hoff. apply includes_elem. destruct (CommandLine.includes args "--no-debug");
      [reflexivity | discriminate].
  - intros Hin. apply includes_elem in Hin. rewrite Hin. reflexivity.
Qed.



End Properties.

(** * Examples on the sample platform *)

#[local] Existing Instance Sample.runtime.

(** C1 as stated fails: the first fetch of a path succeeds and caches
    [null]; the next fetch of the same path sends a second request and
    overwrites the entry. *)
Lemma null_entry_is_overwritten :
  let first := fetchFromApi Sample.null_then_object "people/1" (init_state true) in
  let second := fetchFromApi Sample.null_then_object "people/1" (snd first) in
  fst first = Ok 0%nat /\
  apiCache (snd first) !! "people/1" = Some 0%nat /\
  heap (snd first) !! 0%nat = Some VNull /\
  fst second = Ok 1%nat /\
  fst second <> fst first /\
  requests (snd first) = ["people/1"] /\
  requests (snd second) = ["people/1"; "people/1"] /\
  apiCache (snd second) !! "people/1" = Some 1%nat /\
  heap (snd second) !! 1%nat = Some (VObj []).
Proof. vm_compute. repeat split; try reflexivity. discriminate. Qed.

(** The films are fetched once; after a run and another fetch, a fetch of
    the films returns the cached value and sends nothing. *)
Lemma cached_value_is_reused_witness :
  let s1 := snd (fetchFromApi Sample.swapi "films/" (init_state true)) in
  let s2 := exec Sample.swapi [OpRun; OpFetch "people/1"] s1 in
  apiCache s1 !! "films/" = Some 0%nat /\
  apiCache s2 !! "films/" = Some 0%nat /\
  exists s3, fetchFromApi Sample.swapi "films/" s2 = (Ok 0%nat, s3) /\
             requests s3 = requests s2 /\ totalDataSize s3 = totalDataSize s2 /\
             errorCount s3 = errorCount s2 /\ apiCache s3 = apiCache s2 /\
             heap s3 = heap s2.
Proof.
  intros s1 s2.
  assert (Hname : inherited "films/" = false) by reflexivity.
  assert (Hfetch : fetchFromApi Sample.swapi "films/" (init_state true) = (Ok 0%nat, s1))
    by (vm_compute; reflexivity).
  assert (Htruthy : exists v, heap s1 !! 0%nat = Some v /\ truthy v = true)
    by (exists Sample.films; vm_compute; split; reflexivity).
  destruct (cached_value_is_reused Sample.swapi "films/" (init_state true) 0 s1
              Hname Hfetch) as (Hentry & _ & _ & Hlater).
  split; [exact Hentry|]. exact (Hlater Htruthy [OpRun; OpFetch "people/1"]).
Defined.

(** A run whose planets request fails: the planets, the films and the
    vehicle are never displayed. *)
Lemma failed_fetch_aborts_run_witness :
  let final := fetchAndDisplayStarWarsData Sample.planets_unavailable (init_state true) in
  fst final = Ok tt /\
  trace (snd final) =
    [EvFetch "people/1"; EvDisplay Character; EvFetch "starships/?page=1";
     EvDisplay Starships; EvFetch "planets/?page=1"] /\
  requests (snd final) = ["people/1"; "starships/?page=1"; "planets/?page=1"] /\
  ~ In (EvDisplay Planets) (trace (snd final)) /\
  ~ In (EvDisplay Films) (trace (snd final)) /\
  ~ In (EvDisplay Vehicle) (trace (snd final)).
Proof.
  intros final.
  pose (s := init_state true).
  pose (sk := snd (runUpTo Sample.planets_unavailable Planets s)).
  pose (failed := fetchFromApi Sample.planets_unavailable (resourcePath Planets sk) sk).
  assert (Hup : runUpTo Sample.planets_unavailable Planets s = (Ok tt, sk))
    by (vm_compute; reflexivity).
  assert (Hguard : Planets = Vehicle -> lastCharacterId sk <= MAX_VEHICLE_CHARACTER_ID)
    by discriminate.
  assert (Hfetch : failed = (Throw (HttpStatusError 503), snd failed))
    by (vm_compute; reflexivity).
  destruct (failed_fetch_aborts_run Sample.planets_unavailable Planets s sk _ _ Hup Hguard Hfetch)
    as (Hret & Htrace & Hreq & Hnone & _).
  split; [exact Hret|]. split; [exact Htrace|]. split; [exact Hreq|].
  split; [|split].
  - apply (Hnone Planets). vm_compute. lia.
  - apply (Hnone Films). vm_compute. lia.
  - apply (Hnone Vehicle). vm_compute. lia.
Defined.

(** C4 as stated fails: status 500 for [people/1] counts two errors by
    the time the run returns, and a third when the timeout of the request,
    whose response was never read, fires. *)
Lemma http_error_counted_three_times :
  let s := init_state true in
  let sk := snd (runUpTo Sample.people_broken Character s) in
  let final := snd (fetchAndDisplayStarWarsData Sample.people_broken s) in
  let later := snd (lateEvents Sample.people_broken "people/1" sk final) in
  Sample.people_broken 0%nat "people/1" = OResponse 500 [] /\
  errorCount final = errorCount s + 2 /\
  errorCount later = errorCount s + 3 /\
  errorCount later <> errorCount s + 2.
Proof. vm_compute. repeat split; try reflexivity. discriminate. Qed.

(** Status 500 for [people/1]: two errors counted when the run returns,
    no character display, and a third error from the timeout. *)
Lemma http_status_error_count_witness :
  let s := init_state true in
  let sk := snd (runUpTo Sample.people_broken Character s) in
  let final := snd (fetchAndDisplayStarWarsData Sample.people_broken s) in
  let later := snd (lateEvents Sample.people_broken (resourcePath Character sk) sk final) in
  errorCount final = 2 /\
  console final =
    [Log [AStr "Starting data fetch..."];
     LogError [AStr "Error:"; AMessage (HttpStatusError 500)]] /\
  ~ In (EvDisplay Character) (trace final) /\
  errorCount later = 3.
Proof.
  intros s sk final later.
  assert (Hup : runUpTo Sample.people_broken Character s = (Ok tt, sk))
    by (vm_compute; reflexivity).
  assert (Hguard : Character = Vehicle -> lastCharacterId sk <= MAX_VEHICLE_CHARACTER_ID)
    by discriminate.
  assert (Hmiss : cache_hit sk (resourcePath Character sk) = None)
    by (vm_compute; reflexivity).
  assert (Hnet : Sample.people_broken (List.length (requests sk)) (resourcePath Character sk) =
                 OResponse 500 []) by (vm_compute; reflexivity).
  assert (Hcode : HTTP_ERROR_THRESHOLD <= 500) by (vm_compute; discriminate).
  destruct (http_status_error_count Sample.people_broken Character s sk 500 [] Hup Hguard Hmiss
              Hnet Hcode) as (_ & _ & Hcount & Hconsole & Hnone & _ & Hlater & _).
  split; [exact Hcount|]. split; [exact Hconsole|]. split; [exact Hnone | exact Hlater].
Defined.

(** A run whose vehicle request times out leaves the cursor at 1. *)
Lemma failed_vehicle_fetch_keeps_cursor_witness :
  let s := init_state true in
  let final := snd (fetchAndDisplayStarWarsData Sample.vehicles_time_out s) in
  lastCharacterId final = 1 /\ resourcePath Vehicle final = "vehicles/1".
Proof.
  intros s final.
  pose (sk := snd (runUpTo Sample.vehicles_time_out Vehicle s)).
  pose (failed := fetchFromApi Sample.vehicles_time_out (resourcePath Vehicle sk) sk).
  assert (Hup : runUpTo Sample.vehicles_time_out Vehicle s = (Ok tt, sk))
    by (vm_compute; reflexivity).
  assert (Hguard : lastCharacterId sk <= MAX_VEHICLE_CHARACTER_ID)
    by (vm_compute; discriminate).
  assert (Hfetch : failed = (Throw (TimeoutError "vehicles/1"), snd failed))
    by (vm_compute; reflexivity).
  exact (failed_vehicle_fetch_keeps_cursor Sample.vehicles_time_out s sk _ _ Hup Hguard Hfetch).
Defined.

(** A body that is no JSON text: a parse error, nothing cached. *)
Lemma parse_failure_leaves_cache_witness :
  exists s', fetchFromApi Sample.html_page "people/1" (init_state true) = (Throw ParseError, s') /\
             apiCache s' = ∅ /\ heap s' = [] /\ errorCount s' = 1.
Proof.
  apply (parse_failure_leaves_cache Sample.html_page "people/1" (init_state true) 200 ["<ht"; "ml>"]).
  - vm_compute. reflexivity.
  - vm_compute. reflexivity.
  - vm_compute. reflexivity.
  - vm_compute. reflexivity.
Defined.

(** A cached [null] is fetched again. *)
Lemma falsy_entry_is_refetched_witness :
  let s := snd (fetchFromApi Sample.null_then_object "people/1" (init_state true)) in
  isCached s "people/1" = false /\
  requests (snd (fetchFromApi Sample.null_then_object "people/1" s)) = ["people/1"; "people/1"] /\
  forall r' s', fetchFromApi Sample.null_then_object "people/1" s = (Ok r', s') ->
    r' <> 0%nat /\ apiCache s' !! "people/1" = Some r' /\
    exists v', succeeds Sample.null_then_object "people/1" s v' /\ heap s' !! r' = Some v'.
Proof.
  intros s.
  assert (Hentry : apiCache s !! "people/1" = Some 0%nat) by (vm_compute; reflexivity).
  assert (Hvalue : heap s !! 0%nat = Some VNull) by (vm_compute; reflexivity).
  destruct (falsy_entry_is_refetched Sample.null_then_object "people/1" s 0 VNull Hentry Hvalue
              eq_refl) as (Hcached & Hreq & Hnew & _).
  split; [exact Hcached|]. split; [exact Hreq | exact Hnew].
Defined.

(** Of the sample planets only Coruscant is displayed. *)
Lemma large_planets_only_witness :
  let s := snd (fetchFromApi Sample.swapi "planets/?page=1" (init_state true)) in
  large_and_populated (VStr "1000000000000") (VStr "12240") /\
  largePlanetCondition Sample.billion = Ok false /\
  largePlanetCondition Sample.hoth = Ok false.
Proof.
  intros s. destruct large_planets_only as (Hshown & Hhidden & _).
  split; [|split].
  - apply (Hshown 0%nat s (VStr "Coruscant") _ _ (VStr "temperate")).
    vm_compute. right. left. reflexivity.
  - apply (Hhidden Sample.billion (VStr "1000000000")); [reflexivity|].
    left. reflexivity.
  - apply (Hhidden Sample.hoth (VStr "unknown")); [reflexivity|].
    right. reflexivity.
Defined.



(** What the display of these films writes. *)
Example films_display :
  let s := snd (fetchFromApi Sample.swapi "films/" (init_state false)) in
  console (snd (printFilmsData 0 s)) =
    [Log [AStr (nl +:+ "Star Wars Films in chronological order:")];
     Log [AStr "1. A New Hope (1977-05-25)"];
     Log [AStr "   Director: d"]; Log [AStr "   Producer: p"];
     Log [AStr "   Characters: 0"]; Log [AStr "   Planets: 0"];
     Log [AStr "2. The Empire Strikes Back (1980-05-17)"];
     Log [AStr "   Director: d"]; Log [AStr "   Producer: p"];
     Log [AStr "   Characters: 0"]; Log [AStr "   Planets: 0"]].
Proof. vm_compute. reflexivity. Qed.

(** C8 as stated fails: the display of the films reorders the cached
    films value. *)
Lemma films_display_reorders_cache :
  let s := snd (fetchFromApi Sample.swapi "films/" (init_state false)) in
  let s' := snd (printFilmsData 0 s) in
  apiCache s !! "films/" = Some 0%nat /\
  heap s !! 0%nat = Some (VObj [("results", VArr [Sample.empire; Sample.hope])]) /\
  apiCache s' !! "films/" = Some 0%nat /\
  heap s' !! 0%nat = Some (VObj [("results", VArr [Sample.hope; Sample.empire])]) /\
  heap s' <> heap s.
Proof. vm_compute. repeat split; try reflexivity. discriminate. Qed.

(** C3 as stated fails: after four runs that complete, the cursor exceeds
    [MAX_VEHICLE_CHARACTER_ID]. *)
Lemma cursor_exceeds_bound :
  let s := exec Sample.swapi [OpRun; OpRun; OpRun; OpRun] (init_state false) in
  lastCharacterId s = 5 /\ MAX_VEHICLE_CHARACTER_ID < lastCharacterId s.
Proof. vm_compute. split; reflexivity. Qed.

(** The fifth run on the sample service skips the vehicle. *)
Lemma cursor_invariant_witness :
  let s := exec Sample.swapi [OpRun; OpRun; OpRun; OpRun] (init_state false) in
  let s' := snd (fetchAndDisplayStarWarsData Sample.swapi s) in
  1 <= lastCharacterId s <= MAX_VEHICLE_CHARACTER_ID + 1 /\
  lastCharacterId s' = lastCharacterId s /\
  ~ In (EvDisplay Vehicle) (drop (List.length (trace s)) (trace s')) /\
  ~ In (EvFetch (resourcePath Vehicle s)) (drop (List.length (trace s)) (trace s')).
Proof.
  intros s s'.
  destruct (cursor_invariant Sample.swapi false [OpRun; OpRun; OpRun; OpRun] s eq_refl)
    as (_ & Hrange & _ & _ & _ & Hskip).
  assert (Hguard : MAX_VEHICLE_CHARACTER_ID < lastCharacterId s)
    by (vm_compute; reflexivity).
  destruct (Hskip Hguard) as (Hsame & _ & Hdisplay & Hfetch & _).
  split; [exact Hrange|]. split; [exact Hsame|]. split; [exact Hdisplay | exact Hfetch].
Defined.

(** The display of the sample films changes no counter and not the cache
    map; it replaces the films of its payload by the sorted films. *)
Lemma display_frame_witness :
  let s := snd (fetchFromApi Sample.swapi "films/" (init_state false)) in
  let s' := snd (display Films 0 s) in
  apiCache s' = apiCache s /\ errorCount s' = errorCount s /\
  totalDataSize s' = totalDataSize s /\
  heap s' = <[0%nat := VObj [("results", VArr [Sample.hope; Sample.empire])]]> (heap s).
Proof.
  intros s s'.
  assert (Hr : heap s !! 0%nat = Some (VObj [("results", VArr [Sample.empire; Sample.hope])]))
    by (vm_compute; reflexivity).
  assert (Hsorted : Array_sort compareReleaseDates [Sample.empire; Sample.hope] =
                    Ok [Sample.hope; Sample.empire]) by (vm_compute; reflexivity).
  destruct (display_frame Films 0 s) as (Hc & He & _ & _ & Ht & _ & _ & _ & _ & Hfilms & _).
  specialize (Hfilms eq_refl [("results", VArr [Sample.empire; Sample.hope])]
                [Sample.empire; Sample.hope] Hr eq_refl).
  rewrite Hsorted in Hfilms. destruct Hfilms as (sorted & Hheap & _ & Horder).
  assert (Hdated : Forall dated [Sample.empire; Sample.hope]).
  { repeat constructor.
    - exists 327369600000. vm_compute. reflexivity.
    - exists 233366400000. vm_compute. reflexivity. }
  rewrite (Horder Hdated) in Hheap.
  split; [exact Hc|]. split; [exact He|]. split; [exact Ht | exact Hheap].
Defined.

(** A vehicle request that times out: one request, one error when the
    promise is rejected, nothing cached and nothing written; a second
    error when the aborted request emits ['error']. *)
Lemma fetch_failure_counts_witness :
  let s' := snd (fetchFromApi Sample.vehicles_time_out "vehicles/1" (init_state true)) in
  let later := snd (lateEvents Sample.vehicles_time_out "vehicles/1" (init_state true) s') in
  errorCount s' = 1 /\ requests s' = ["vehicles/1"] /\ apiCache s' = ∅ /\
  heap s' = [] /\ console s' = [] /\ errorCount later = 2.
Proof.
  intros s' later.
  assert (Hfetch : fetchFromApi Sample.vehicles_time_out "vehicles/1" (init_state true) =
                   (Throw (TimeoutError "vehicles/1"), s')) by (vm_compute; reflexivity).
  destruct (fetch_failure_counts Sample.vehicles_time_out "vehicles/1" (init_state true)
              _ s' Hfetch) as (He & Hr & Hc & Hh & _ & _ & Hcon & _ & _ & _ & Hlater).
  split; [exact He|]. split; [exact Hr|]. split; [exact Hc|]. split; [exact Hh|].
  split; [exact Hcon|]. unfold later. rewrite Hlater. reflexivity.
Defined.

(** With debugging off a fetch from the sample service writes nothing. *)
Lemma quiet_without_debug_witness :
  console (snd (fetchFromApi Sample.swapi "people/1" (init_state false))) = [] /\
  console (snd (printStats (init_state false))) = [].
Proof. exact (quiet_without_debug Sample.swapi "people/1" (init_state false) eq_refl). Defined.

(** The character payload is [null]: its display throws, and the run
    counts one error. *)
Lemma display_error_counted_once_witness :
  let final := fetchAndDisplayStarWarsData Sample.null_then_object (init_state true) in
  fst final = Ok tt /\
  errorCount (snd final) = 1 /\
  lastCharacterId (snd final) = 1 /\
  totalDataSize (snd final) = 4 /\
  trace (snd final) = [EvFetch "people/1"; EvDisplay Character] /\
  last (console (snd final)) = Some (LogError [AStr "Error:"; AMessage TypeError]).
Proof.
  intros final.
  pose (s := init_state true).
  pose (sk := snd (runUpTo Sample.null_then_object Character s)).
  pose (s1 := snd (fetchFromApi Sample.null_then_object (resourcePath Character sk) sk)).
  pose (s2 := snd (display Character 0 (sized 0 s1))).
  assert (Hup : runUpTo Sample.null_then_object Character s = (Ok tt, sk))
    by (vm_compute; reflexivity).
  assert (Hguard : Character = Vehicle -> lastCharacterId sk <= MAX_VEHICLE_CHARACTER_ID)
    by discriminate.
  assert (Hfetch : fetchFromApi Sample.null_then_object (resourcePath Character sk) sk =
                   (Ok 0%nat, s1)) by (vm_compute; reflexivity).
  assert (Hdisplay : display Character 0 (sized 0 s1) = (Throw TypeError, s2))
    by (vm_compute; reflexivity).
  destruct (display_error_counted_once Sample.null_then_object Character s sk 0 s1 TypeError s2
              Hup Hguard Hfetch Hdisplay) as (Hret & He & Hc & Hsize & Htrace & Hlast).
  split; [exact Hret|]. split; [exact He|]. split; [exact Hc|]. split; [exact Hsize|].
  split; [exact Htrace | exact Hlast].
Defined.

(** A run on the sample service completes and moves the cursor to 2. *)
Lemma complete_run_advances_cursor_witness :
  let final := fetchAndDisplayStarWarsData Sample.swapi (init_state false) in
  fst final = Ok tt /\
  lastCharacterId (snd final) = 2 /\
  errorCount (snd final) = 0 /\
  trace (snd final) =
    [EvFetch "people/1"; EvDisplay Character; EvFetch "starships/?page=1";
     EvDisplay Starships; EvFetch "planets/?page=1"; EvDisplay Planets;
     EvFetch "films/"; EvDisplay Films; EvFetch "vehicles/1"; EvDisplay Vehicle].
Proof.
  intros final.
  pose (s := init_state false).
  pose (sk := snd (runUpTo Sample.swapi Vehicle s)).
  pose (s5 := snd (handleData Sample.swapi Vehicle sk)).
  assert (Hup : runUpTo Sample.swapi Vehicle s = (Ok tt, sk)) by (vm_compute; reflexivity).
  assert (Hguard : lastCharacterId sk <= MAX_VEHICLE_CHARACTER_ID)
    by (vm_compute; discriminate).
  assert (Hstep : handleData Sample.swapi Vehicle sk = (Ok tt, s5))
    by (vm_compute; reflexivity).
  destruct (complete_run_advances_cursor Sample.swapi s sk s5 Hup Hguard Hstep)
    as (Hret & Hc & He & Htrace).
  split; [exact Hret|]. split; [exact Hc|]. split; [exact He | exact Htrace].
Defined.

(** The display of the planets on a payload that is [null]. *)
Lemma display_of_null_throws_witness :
  let s := snd (fetchFromApi Sample.null_then_object "planets/?page=1" (init_state true)) in
  fst (display Planets 0 s) = Throw TypeError /\
  console (snd (display Planets 0 s)) =
    console s ++ [Log [AStr (nl +:+ "Large populated planets:")]] /\
  heap (snd (display Planets 0 s)) = heap s.
Proof.
  intros s.
  assert (Hnull : heap s !! 0%nat = Some VNull) by (vm_compute; reflexivity).
  exact (display_of_null_throws Planets 0 s Hnull).
Defined.

(** The sample vehicle has a name only: its display completes, and the
    model is shown as [undefined]. *)
Lemma printVehicleData_total_witness :
  let s := snd (fetchFromApi Sample.swapi "vehicles/1" (init_state false)) in
  fst (printVehicleData 0 s) = Ok tt /\
  console (snd (printVehicleData 0 s)) = console s ++ vehicle_lines Sample.crawler /\
  field Sample.crawler "model" = VUndef.
Proof.
  intros s.
  assert (Hr : heap s !! 0%nat = Some Sample.crawler) by (vm_compute; reflexivity).
  assert (Hn : Sample.crawler <> VNull) by discriminate.
  assert (Hu : Sample.crawler <> VUndef) by discriminate.
  destruct (printVehicleData_total 0 s Sample.crawler Hr Hn Hu) as [Hrun Hfield].
  split; [|split].
  - rewrite Hrun. reflexivity.
  - rewrite Hrun. reflexivity.
  - apply (Hfield [("name", VStr "Sand Crawler")] "model"); reflexivity.
Defined.

(** The sample films, displayed twice. *)
Lemma films_display_repeats_witness :
  let s := snd (fetchFromApi Sample.swapi "films/" (init_state false)) in
  let first := printFilmsData 0 s in
  let second := printFilmsData 0 (snd first) in
  fst second = fst first /\
  heap (snd second) = heap (snd first) /\
  drop (List.length (console (snd first))) (console (snd second)) =
  drop (List.length (console s)) (console (snd first)).
Proof.
  intros s.
  apply (films_display_repeats 0 s [("results", VArr [Sample.empire; Sample.hope])]
           [Sample.empire; Sample.hope]).
  - vm_compute. reflexivity.
  - reflexivity.
  - repeat constructor.
    + exists 327369600000. vm_compute. reflexivity.
    + exists 233366400000. vm_compute. reflexivity.
Defined.

(** A timeout argument that is no number: the first script ends with
    [NaN], the variant with the logger with the default. *)
Lemma timeout_argument_read_witness :
  let args := ["--no-debug"; "--timeout"; "soon"] in
  CommandLine.requestTimeout (CommandLine.processArgs_original args CommandLine.defaults) =
    None /\
  CommandLine.requestTimeout (CommandLine.processArgs_logger args CommandLine.defaults) =
    Some 5000.
Proof.
  assert (Hpre : "--timeout" ∉ ["--no-debug"]).
  { intros Hin. apply list_elem_of_singleton in Hin. discriminate. }
  exact (timeout_argument_read ["--no-debug"] "soon" [] CommandLine.defaults Hpre).
Defined.

(** A negative timeout argument is assigned by the first script and
    refused by the variant with the logger. *)
Lemma guarded_timeout_positive_witness :
  let args := ["--timeout"; "-5"] in
  CommandLine.requestTimeout (CommandLine.processArgs_original args CommandLine.defaults) =
    Some (-5) /\
  CommandLine.requestTimeout (CommandLine.processArgs_logger args CommandLine.defaults) =
    Some 5000.
Proof.
  intros args.
  destruct (guarded_timeout_positive args CommandLine.defaults eq_refl) as [_ Hguard].
  split; [reflexivity | exact Hguard].
Defined.

(** After a run on the sample service the films are cached at address 3:
    they have been requested, and the address holds a value. *)
Lemma cached_paths_were_fetched_witness :
  let s := exec Sample.swapi [OpRun] (init_state false) in
  In "films/" (requests s) /\ exists v, heap s !! 3%nat = Some v.
Proof.
  intros s.
  apply (cached_paths_were_fetched Sample.swapi false [OpRun] "films/" 3).
  vm_compute. reflexivity.
Defined.

(** The first fetch of [people/1] sends one request, the second none. *)
Lemma fetch_requests_on_miss_only_witness :
  let s := init_state false in
  let s1 := snd (fetchFromApi Sample.swapi "people/1" s) in
  let s2 := snd (fetchFromApi Sample.swapi "people/1" s1) in
  requests s1 = ["people/1"] /\ requests s2 = ["people/1"].
Proof.
  intros s s1 s2.
  destruct (fetch_requests_on_miss_only Sample.swapi "people/1" s eq_refl) as [Hfirst _].
  destruct (fetch_requests_on_miss_only Sample.swapi "people/1" s1 eq_refl) as [Hsecond _].
  split; [exact Hfirst | exact Hsecond].
Defined.

(** Of four starships the first three are shown, in the order of the
    payload. *)
Lemma first_three_starships_shown_witness :
  let s := snd (fetchFromApi Sample.four_starships "starships/?page=1" (init_state false)) in
  fst (printStarshipData 0 s) = Ok tt /\
  console (snd (printStarshipData 0 s)) =
    console s ++
    Log [AStr (nl +:+ "Total Starships:"); AVal (VStr "4")] ::
    listing starship_lines 0
      [Sample.ship "Executor"; Sample.ship "Falcon"; Sample.ship "X-wing"].
Proof.
  intros s.
  assert (Hr : heap s !! 0%nat = Some Sample.fleet) by (vm_compute; reflexivity).
  destruct (first_three_starships_shown 0 s _ _ Hr eq_refl)
    as (lines & Hc & _ & Hfull & Hdone).
  assert (Hshippable : Forall shippable
            (firstn MAX_STARSHIPS_DISPLAYED
               [Sample.ship "Executor"; Sample.ship "Falcon"; Sample.ship "X-wing";
                Sample.ship "Slave 1"])).
  { repeat constructor; try discriminate; eexists; reflexivity. }
  split; [exact (Hdone Hshippable)|].
  rewrite Hc, (Hfull (Hdone Hshippable)). reflexivity.
Defined.
